(** * Virtual-Bus-Tracker: the vehicle motion and ETA engine

    A shallow embedding of [backend/bus_simulator.py] (class [BusSimulator])
    and of the functions of [backend/main.py] that compute on its state or
    on strings: [decode_polyline], [nearest_vehicle],
    [nearest_vehicle_to_stop] and [check_notification].

    Numbers.  The simulator computes with Python floats; here every float is
    an exact rational ([Q]), so rounding error is idealised away while all
    the comparisons that steer the control flow ([<= 0], [== 0], [>=],
    [< 0.02], [< 0.05]) are kept as written.  Route indices and fleet sizes
    are Python ints ([Z]).

    Distance.  [calculate_distance] is the haversine formula, built from
    [sin], [cos], [atan2] and [sqrt]; it is taken as a parameter of the
    section below, so that every general theorem holds for whatever that
    function returns.  [flat_distance] is a computable instance used to run
    the model on sample routes.

    Time.  [datetime.now()] is outside the model: [update_positions] takes
    the elapsed seconds as its argument and the [eta_time] and
    [current_time] strings are left out of the result dictionaries.

    Exceptions.  An operation that can raise ([IndexError],
    [ZeroDivisionError]) returns [option]; [None] is the raised exception. *)

From Stdlib Require Import ZArith QArith Qround Qabs List String Bool Lia Lqa.
From Stdlib Require Import DecimalString DecimalZ Ascii.
Import ListNotations.

Open Scope Q_scope.

(** ** Small prelude: comparisons, the error monad, Python list access *)

Definition Qlt_bool (x y : Q) : bool := negb (Qle_bool y x).

Definition bind {A B : Type} (m : option A) (k : A -> option B) : option B :=
  match m with
  | Some a => k a
  | None => None
  end.

Notation "x <- m ;; k" := (bind m (fun x => k))
  (at level 61, m at next level, right associativity).

Fixpoint mapM {A B : Type} (f : A -> option B) (l : list A) : option (list B) :=
  match l with
  | [] => Some []
  | a :: l' =>
      b <- f a ;;
      bs <- mapM f l' ;;
      Some (b :: bs)
  end.

(** [l[i]] in Python: a negative index counts from the end, anything outside
    [-len .. len-1] raises [IndexError]. *)
Definition py_index {A : Type} (l : list A) (i : Z) : option A :=
  let n := Z.of_nat (List.length l) in
  if (0 <=? i)%Z then nth_error l (Z.to_nat i)
  else if (- n <=? i)%Z then nth_error l (Z.to_nat (n + i))
  else None.

(** [range(a, b)] *)
Definition py_range (a b : Z) : list Z :=
  map (fun k => (a + Z.of_nat k)%Z) (seq 0 (Z.to_nat (b - a))).

(** [enumerate(l)] *)
Definition enumerate {A : Type} (l : list A) : list (Z * A) :=
  combine (py_range 0 (Z.of_nat (List.length l))) l.

(** [round(x, ndigits)] on an exact rational: to the nearest multiple of
    [10^-ndigits], a tie going to the even neighbour. *)
Definition py_round (x : Q) (ndigits : nat) : Q :=
  let scale := inject_Z (10 ^ Z.of_nat ndigits) in
  let y := x * scale in
  let f := Qfloor y in
  let r := y - inject_Z f in
  let n := if Qlt_bool r (1 # 2) then f
           else if Qlt_bool (1 # 2) r then (f + 1)%Z
           else if Z.even f then f else (f + 1)%Z in
  Qred (inject_Z n / scale).

(** ** Data model *)

(** A route coordinate, [[lat, lon]]. *)
Definition Coordinate : Type := (Q * Q)%type.

(** An entry of [route_data['stops']]; [wait_time] is read with
    [stop.get('wait_time', 0)], so the key may be absent. *)
Record Stop : Type := mkStop {
  name : string;
  lat : Q;
  lon : Q;
  wait_time : option Q
}.

Definition stop_wait (s : Stop) : Q :=
  match wait_time s with
  | Some w => w
  | None => 0
  end.

(** One of the dictionaries of [self.vehicles]. *)
Record Vehicle : Type := mkVehicle {
  id : string;
  current_index : Z;
  current_position : Coordinate;
  is_at_stop : bool;
  stop_wait_remaining : Q;
  speed_kmh : Q
}.

(** The fields of [BusSimulator] that the engine reads and writes. *)
Record BusSimulator : Type := mkSim {
  coordinates : list Coordinate;
  stops : list Stop;
  vehicles : list Vehicle;
  num_vehicles : Z
}.

Definition set_index (v : Vehicle) (i : Z) : Vehicle :=
  mkVehicle (id v) i (current_position v) (is_at_stop v)
            (stop_wait_remaining v) (speed_kmh v).

Definition set_position (v : Vehicle) (p : Coordinate) : Vehicle :=
  mkVehicle (id v) (current_index v) p (is_at_stop v)
            (stop_wait_remaining v) (speed_kmh v).

Definition set_at_stop (v : Vehicle) (b : bool) : Vehicle :=
  mkVehicle (id v) (current_index v) (current_position v) b
            (stop_wait_remaining v) (speed_kmh v).

Definition set_wait (v : Vehicle) (w : Q) : Vehicle :=
  mkVehicle (id v) (current_index v) (current_position v) (is_at_stop v)
            w (speed_kmh v).

Definition route_len_of (cs : list Coordinate) : Z := Z.of_nat (List.length cs).

(** The result dictionary of the ETA queries. *)
Record EtaDict : Type := mkEta {
  eta_minutes : option Q;
  distance_km : option Q;
  error : option string
}.

Definition eta_error (msg : string) : EtaDict := mkEta None None (Some msg).

(** The result dictionary of [get_status]; [StatusEmpty] is [{}]. *)
Inductive StatusDict : Type :=
| StatusEmpty
| Status (position : Coordinate) (is_moving : bool)
         (nearest_stop : option string) (distance_to_stop : option Q)
         (speed : Q).

(** ** Construction *)

(** [f'bus-{i+1}'] *)
Definition bus_id (i : Z) : string :=
  ("bus-" ++ NilZero.string_of_int (Z.to_int (i + 1)))%string.

(** The body of the loop of [__init__].  [int(x / y)] truncates toward zero,
    hence [Z.quot]. *)
Definition init_vehicle (coords : list Coordinate) (count i : Z)
  : option Vehicle :=
  let route_len := route_len_of coords in
  let idx := Z.quot (i * route_len) count in
  pos <- py_index coords idx ;;
  Some {| id := bus_id i;
          current_index := if (idx <? route_len)%Z then idx
                           else (route_len - 1)%Z;
          current_position := pos;
          is_at_stop := false;
          stop_wait_remaining := 0;
          speed_kmh := inject_Z (25 + (i * 5) mod 15) |}.

(** [BusSimulator(route_file, num_vehicles)], from the parsed route. *)
Definition init (coords : list Coordinate) (sts : list Stop) (requested : Z)
  : option BusSimulator :=
  let count := Z.max 1 requested in
  vs <- mapM (init_vehicle coords count) (py_range 0 count) ;;
  Some {| coordinates := coords; stops := sts; vehicles := vs;
          num_vehicles := count |}.

(** ** Route replacement *)

Definition reposition (coords : list Coordinate) (count : Z)
  (iv : Z * Vehicle) : option Vehicle :=
  let (i, v) := iv in
  let route_len := route_len_of coords in
  let idx := Z.quot (i * route_len) (Z.max 1 count) in
  let idx' := if (idx <? route_len)%Z then idx else (route_len - 1)%Z in
  pos <- py_index coords idx' ;;
  Some {| id := id v;
          current_index := idx';
          current_position := pos;
          is_at_stop := false;
          stop_wait_remaining := 0;
          speed_kmh := speed_kmh v |}.

Definition set_route_coordinates (coords : list Coordinate)
  (sim : BusSimulator) : option BusSimulator :=
  match coords with
  | [] => Some sim
  | _ :: _ =>
      vs <- mapM (reposition coords (Z.of_nat (List.length (vehicles sim))))
                 (enumerate (vehicles sim)) ;;
      Some {| coordinates := coords; stops := stops sim; vehicles := vs;
              num_vehicles := num_vehicles sim |}
  end.

(** ** The engine, over the distance function *)

Section Engine.

(** [calculate_distance lat1 lon1 lat2 lon2], kilometres. *)
Variable calculate_distance : Q -> Q -> Q -> Q -> Q.

Definition distance_between (a b : Coordinate) : Q :=
  calculate_distance (fst a) (snd a) (fst b) (snd b).

Definition distance_to_stop_from (a : Coordinate) (s : Stop) : Q :=
  calculate_distance (fst a) (snd a) (lat s) (lon s).

(** [min(vehicle['current_index'] + 1, route_len - 1)] *)
Definition next_index (route_len i : Z) : Z := Z.min (i + 1) (route_len - 1).

(** The stop scan of [update_positions]: the first stop closer than 0.02 km
    to the target coordinate ends the loop. *)
Definition stop_at (sts : list Stop) (target : Coordinate) : option Stop :=
  find (fun s => Qlt_bool (distance_to_stop_from target s) 0.02) sts.

(** The body of the loop of [update_positions], for one vehicle. *)
Definition update_vehicle (coords : list Coordinate) (sts : list Stop)
  (elapsed_seconds : Q) (v : Vehicle) : option Vehicle :=
  let route_len := route_len_of coords in
  if is_at_stop v then
    let v1 := set_wait v (stop_wait_remaining v - elapsed_seconds) in
    if Qle_bool (stop_wait_remaining v1) 0 then
      Some (set_index (set_at_stop v1 false)
                      (next_index route_len (current_index v1)))
    else Some v1
  else if (route_len <=? current_index v)%Z then
    first <- py_index coords 0 ;;
    Some (set_position (set_index v 0) first)
  else
    let distance_to_move_km := (speed_kmh v / 3600) * elapsed_seconds in
    target <- py_index coords (current_index v) ;;
    let (current_lat, current_lon) := current_position v in
    let (target_lat, target_lon) := target in
    let distance_to_target :=
      calculate_distance current_lat current_lon target_lat target_lon in
    if Qeq_bool distance_to_target 0 then
      Some (set_index v (next_index route_len (current_index v)))
    else if Qle_bool distance_to_target distance_to_move_km then
      let v1 := set_position v target in
      let v2 := match stop_at sts (target_lat, target_lon) with
                | Some s => set_wait (set_at_stop v1 true) (stop_wait s)
                | None => v1
                end in
      if negb (is_at_stop v2) then
        Some (set_index v2 (next_index route_len (current_index v2)))
      else Some v2
    else
      let ratio := distance_to_move_km / distance_to_target in
      let new_lat := current_lat + (target_lat - current_lat) * ratio in
      let new_lon := current_lon + (target_lon - current_lon) * ratio in
      Some (set_position v (new_lat, new_lon)).

(** [update_positions], with the elapsed seconds as input. *)
Definition update_positions (elapsed_seconds : Q) (sim : BusSimulator)
  : option BusSimulator :=
  vs <- mapM (update_vehicle (coordinates sim) (stops sim) elapsed_seconds)
             (vehicles sim) ;;
  Some {| coordinates := coordinates sim; stops := stops sim; vehicles := vs;
          num_vehicles := num_vehicles sim |}.

(** A run of ticks, one elapsed interval per tick. *)
Fixpoint run_ticks (es : list Q) (sim : BusSimulator) : option BusSimulator :=
  match es with
  | [] => Some sim
  | e :: es' => sim' <- update_positions e sim ;; run_ticks es' sim'
  end.

(** The same for a single vehicle of a fixed route. *)
Fixpoint run_vehicle (coords : list Coordinate) (sts : list Stop)
  (es : list Q) (v : Vehicle) : option Vehicle :=
  match es with
  | [] => Some v
  | e :: es' =>
      v' <- update_vehicle coords sts e v ;; run_vehicle coords sts es' v'
  end.

(** ** Queries *)

(** The scan of [find_nearest_stop]: [best] is [None] while [min_distance]
    is still infinite. *)
Definition nearer (p : Coordinate) (best : option (Stop * Q)) (s : Stop)
  : option (Stop * Q) :=
  let distance := distance_to_stop_from p s in
  match best with
  | None => Some (s, distance)
  | Some (_, min_distance) =>
      if Qlt_bool distance min_distance then Some (s, distance) else best
  end.

Definition find_nearest_stop (sim : BusSimulator) : option (Stop * Q) :=
  match vehicles sim with
  | [] => None
  | v :: _ => fold_left (nearer (current_position v)) (stops sim) None
  end.

Definition get_status (sim : BusSimulator) : StatusDict :=
  match vehicles sim with
  | [] => StatusEmpty
  | v :: _ =>
      let nearest := find_nearest_stop sim in
      Status (current_position v)
             (negb (is_at_stop v))
             (option_map (fun sd => name (fst sd)) nearest)
             (option_map (fun sd => py_round (snd sd) 2) nearest)
             (if negb (is_at_stop v) then speed_kmh v else 0)
  end.

(** The walk of [calculate_eta_for_vehicle] over [range(cur_idx, route_len)]:
    the flag is [target_found], the number [total_distance]. *)
Fixpoint walk (coords : list Coordinate) (target_stop : Stop) (idxs : list Z)
  (total_distance : Q) : option (bool * Q) :=
  match idxs with
  | [] => Some (false, total_distance)
  | i :: idxs' =>
      coord <- py_index coords i ;;
      if Qlt_bool (distance_to_stop_from coord target_stop) 0.05 then
        Some (true, total_distance)
      else if (i + 1 <? route_len_of coords)%Z then
        next <- py_index coords (i + 1)%Z ;;
        walk coords target_stop idxs'
             (total_distance + distance_between coord next)
      else walk coords target_stop idxs' total_distance
  end.

(** Dwell of the stops lying between the vehicle and the target, by
    distance from the vehicle. *)
Definition wait_between (sts : list Stop) (cur : Coordinate)
  (target_stop : Stop) : Q :=
  fold_left
    (fun wait_time_minutes stop =>
       let stop_dist := distance_to_stop_from cur stop in
       let target_dist := distance_to_stop_from cur target_stop in
       if Qlt_bool 0.05 stop_dist && Qlt_bool stop_dist target_dist
       then wait_time_minutes + stop_wait stop / 60
       else wait_time_minutes)
    sts 0.

(** [next((v for v in self.vehicles if v['id'] == vehicle_id), None)] *)
Definition vehicle_by_id (sim : BusSimulator) (vehicle_id : string)
  : option Vehicle :=
  find (fun v => String.eqb (id v) vehicle_id) (vehicles sim).

(** [next((s for s in self.stops if s['name'] == stop_name), None)] *)
Definition stop_by_name (sim : BusSimulator) (stop_name : string)
  : option Stop :=
  find (fun s => String.eqb (name s) stop_name) (stops sim).

Definition calculate_eta_for_vehicle (sim : BusSimulator)
  (vehicle_id stop_name : string) : option EtaDict :=
  match vehicle_by_id sim vehicle_id with
  | None => Some (eta_error "Vehicle not found")
  | Some vehicle =>
      match stop_by_name sim stop_name with
      | None => Some (eta_error "Stop not found")
      | Some target_stop =>
          let route_len := route_len_of (coordinates sim) in
          let cur_idx := current_index vehicle in
          let cur := current_position vehicle in
          start <- (if (cur_idx <? route_len)%Z then
                      c <- py_index (coordinates sim) cur_idx ;;
                      Some (0 + distance_between cur c)
                    else Some 0) ;;
          found <- walk (coordinates sim) target_stop
                        (py_range cur_idx route_len) start ;;
          let (target_found, total_distance) := found in
          if negb target_found then
            Some (eta_error "Stop not on remaining route")
          else if Qeq_bool (speed_kmh vehicle) 0 then None
          else
            let travel_time_hours := total_distance / speed_kmh vehicle in
            let travel_time_minutes := travel_time_hours * 60 in
            let wait_time_minutes :=
              wait_between (stops sim) cur target_stop in
            let total_minutes :=
              travel_time_minutes + wait_time_minutes
              + stop_wait_remaining vehicle / 60 in
            Some {| eta_minutes := Some (py_round total_minutes 1);
                    distance_km := Some (py_round total_distance 3);
                    error := None |}
      end
  end.

Definition calculate_eta_to_stop (sim : BusSimulator) (stop_name : string)
  : option EtaDict :=
  match vehicles sim with
  | [] => Some (eta_error "No vehicles available")
  | v :: _ => calculate_eta_for_vehicle sim (id v) stop_name
  end.

(** ** Vocabulary for the statements *)

(** The vehicle that leaves the branch
    [distance_to_move_km >= distance_to_target] of [update_vehicle]. *)
Definition arrived (coords : list Coordinate) (sts : list Stop) (v : Vehicle)
  (target : Coordinate) : Vehicle :=
  let v1 := set_position v target in
  match stop_at sts target with
  | Some s => set_wait (set_at_stop v1 true) (stop_wait s)
  | None => set_index v1 (next_index (route_len_of coords) (current_index v))
  end.

(** A vehicle that a tick of length 0 cannot move on: it is waiting with
    time left, or it is on its way to a coordinate it has not reached. *)
Definition settled (coords : list Coordinate) (v : Vehicle) : Prop :=
  if is_at_stop v then 0 < stop_wait_remaining v
  else exists target,
      (current_index v < route_len_of coords)%Z /\
      py_index coords (current_index v) = Some target /\
      0 < distance_between (current_position v) target.

(** Some coordinate from the vehicle's index on is closer than 0.05 km to
    the stop. *)
Definition on_remaining_route (coords : list Coordinate) (v : Vehicle)
  (s : Stop) : Prop :=
  exists (i : Z) (c : Coordinate),
    (current_index v <= i < route_len_of coords)%Z /\
    py_index coords i = Some c /\
    distance_to_stop_from c s < 0.05.

(** ** Reachable engine states *)

(** One mutation of the engine: a completed tick or a route replacement. *)
Inductive step : BusSimulator -> BusSimulator -> Prop :=
| step_tick sim elapsed sim' :
    update_positions elapsed sim = Some sim' -> step sim sim'
| step_route sim coords sim' :
    set_route_coordinates coords sim = Some sim' -> step sim sim'.

Inductive evolves (sim0 : BusSimulator) : BusSimulator -> Prop :=
| evolves_refl : evolves sim0 sim0
| evolves_step sim sim' : evolves sim0 sim -> step sim sim' -> evolves sim0 sim'.

(** Everything the constructor and the two mutators can produce. *)
Definition reachable (sim : BusSimulator) : Prop :=
  exists coords sts requested sim0,
    init coords sts requested = Some sim0 /\ evolves sim0 sim.

End Engine.

(** A computable distance for sample runs: 111 km per degree along each
    axis.  It is 0 exactly on coincident points, as the haversine formula
    is.  The sample runs below only measure coincident points and legs of
    one degree along the equator (111.19 km by the haversine formula), and
    compare these with 0, 0.02, 0.05 and a move of 138.9 km, so each
    comparison comes out as it does in the simulator. *)
Definition flat_distance (lat1 lon1 lat2 lon2 : Q) : Q :=
  111 * (Qabs (lat2 - lat1) + Qabs (lon2 - lon1)).

(** ** Invariants and sample data *)

(** [0 <= current_index <= route_len - 1] *)
Definition index_in_range (route_len : Z) (v : Vehicle) : Prop :=
  (0 <= current_index v <= route_len - 1)%Z.

(** What every reachable engine satisfies: a non-empty route, a non-empty
    fleet of the size fixed at construction, indices inside the route and
    the speeds the constructor hands out. *)
Record well_formed (sim : BusSimulator) : Prop := mkWf {
  wf_route : coordinates sim <> [];
  wf_fleet : List.length (vehicles sim) = Z.to_nat (num_vehicles sim);
  wf_count : (1 <= num_vehicles sim)%Z;
  wf_index :
    Forall (index_in_range (route_len_of (coordinates sim))) (vehicles sim);
  wf_speed : Forall (fun v => 25 <= speed_kmh v) (vehicles sim)
}.

(** Equal up to the representation of the rationals. *)
Definition same_motion_state (v v' : Vehicle) : Prop :=
  current_index v' = current_index v /\
  is_at_stop v' = is_at_stop v /\
  stop_wait_remaining v' == stop_wait_remaining v /\
  fst (current_position v') == fst (current_position v) /\
  snd (current_position v') == snd (current_position v).

Fixpoint sumQ (l : list Q) : Q :=
  match l with
  | [] => 0
  | x :: l' => x + sumQ l'
  end.

(** A two-point route along the equator, one degree of longitude long, with
    a 30 s stop on its last point. *)
Definition route2 : list Coordinate := [(0, 0); (0, 1)].
Definition stops2 : list Stop := [mkStop "Terminus" 0 1 (Some 30)].


(** A three-point route with a stop on its middle point. *)
Definition route3 : list Coordinate := [(0, 0); (0, 1); (0, 2)].
Definition stops3 : list Stop := [mkStop "Midway" 0 1 (Some 30)].

Definition sim2 : BusSimulator :=
  {| coordinates := route2; stops := stops2;
     vehicles := [mkVehicle "bus-1" 0 (0, 0) false 0 25];
     num_vehicles := 1 |}.

Definition sim3 : BusSimulator :=
  {| coordinates := route3; stops := stops3;
     vehicles := [mkVehicle "bus-1" 0 (0, 0) false 0 25];
     num_vehicles := 1 |}.

(** A bus under way on the first leg of [route3], and the engine that
    holds it. *)
Definition bus_on_leg : Vehicle := mkVehicle "bus-1" 1 (0, 0) false 0 25.

Definition sim3_under_way : BusSimulator :=
  {| coordinates := route3; stops := stops3; vehicles := [bus_on_leg];
     num_vehicles := 1 |}.

(** A bus waiting at the middle stop of [route3] with 30 s to go. *)
Definition bus_at_midway : Vehicle := mkVehicle "bus-1" 1 (0, 1) true 30 25.

(** A bus waiting at the terminus of [route2] with 30 s to go. *)
Definition bus_waiting : Vehicle := mkVehicle "bus-1" 1 (0, 1) true 30 25.

Definition sim2_at_terminus : BusSimulator :=
  {| coordinates := route2; stops := stops2; vehicles := [bus_waiting];
     num_vehicles := 1 |}.

(** [sim2] once its bus has left the terminus stop, 30 s late, and the same
    engine with the bus's stored dwell-remaining put back to 0. *)
Definition sim2_departed : BusSimulator :=
  {| coordinates := route2; stops := stops2;
     vehicles := [mkVehicle "bus-1" 1 (0, 1) false (30 - 60) 25];
     num_vehicles := 1 |}.

Definition sim2_departed_cleared : BusSimulator :=
  {| coordinates := route2; stops := stops2;
     vehicles := [mkVehicle "bus-1" 1 (0, 1) false 0 25];
     num_vehicles := 1 |}.

(** The engine with the dwelling flag of every vehicle forced to [b]. *)
Definition with_dwelling_flag (b : bool) (sim : BusSimulator) : BusSimulator :=
  {| coordinates := coordinates sim; stops := stops sim;
     vehicles := map (fun v => set_at_stop v b) (vehicles sim);
     num_vehicles := num_vehicles sim |}.

(** ** The remaining queries of the simulator and the endpoints of [main.py] *)



(** An entry of the list returned by [get_vehicles_for_stops]. *)
Record VehicleBrief : Type := mkBrief {
  brief_id : string;
  brief_position : Coordinate;
  brief_current_index : Z
}.

(** [next(i for i, s in enumerate(self.stops) if s['name'] == stop_name)];
    [None] is [StopIteration]. *)
Definition stop_ordinal (sts : list Stop) (stop_name : string) : option Z :=
  option_map fst
    (find (fun (p : Z * Stop) => String.eqb (name (snd p)) stop_name)
          (enumerate sts)).

Definition get_vehicles_for_stops (sim : BusSimulator)
  (from_stop to_stop : string) : list VehicleBrief :=
  match stop_ordinal (stops sim) from_stop,
        stop_ordinal (stops sim) to_stop with
  | Some from_idx, Some to_idx =>
      if (to_idx <=? from_idx)%Z then []
      else
        map (fun v => {| brief_id := id v;
                         brief_position := current_position v;
                         brief_current_index := current_index v |})
            (filter (fun v => (current_index v <=? to_idx)%Z) (vehicles sim))
  | _, _ => []
  end.

(** The scan that [find_nearest_stop] and [nearest_vehicle] share: keep the
    first element whose distance is strictly below everything seen before.
    [None] stands for the initial [float('inf')]. *)
Definition nearer_by {A : Type} (d : A -> Q) (best : option (A * Q)) (x : A)
  : option (A * Q) :=
  let distance := d x in
  match best with
  | None => Some (x, distance)
  | Some (_, min_distance) =>
      if Qlt_bool distance min_distance then Some (x, distance) else best
  end.





Section Endpoints.

Variable calculate_distance : Q -> Q -> Q -> Q -> Q.

(** [get_all_eta]: one entry per stop, [stop_name] in front of the keys of
    the legacy ETA query. *)
Definition get_all_eta (sim : BusSimulator) : option (list (string * EtaDict)) :=
  mapM (fun stop =>
          eta_data <- calculate_eta_to_stop calculate_distance sim (name stop) ;;
          Some (name stop, eta_data))
       (stops sim).





(** The length of the path that the ETA walk measures when it stops at
    coordinate [j]: from the vehicle to its target coordinate, then leg by
    leg along the route. *)
Definition coordinate_at (coords : list Coordinate) (i : Z) : Coordinate :=
  nth (Z.to_nat i) coords (0, 0).


(** A vehicle as the constructor and a route replacement leave it: not
    waiting, and standing on the coordinate its index points to. *)
Definition parked_on_target (coords : list Coordinate) (v : Vehicle) : Prop :=
  is_at_stop v = false /\
  (0 <= current_index v < route_len_of coords)%Z /\
  py_index coords (current_index v) = Some (current_position v).

End Endpoints.

(** [k] is the position of the first stop called [stop_name]. *)
Definition first_named (sts : list Stop) (stop_name : string) (k : nat)
  : Prop :=
  (exists s, nth_error sts k = Some s /\ name s = stop_name) /\
  forall k' s', (k' < k)%nat -> nth_error sts k' = Some s' ->
                name s' <> stop_name.

(** ** Polyline decoding ([main.py]) *)

(** [ord(c)] for the characters of the string, in order.  A character is
    one byte here; the polyline alphabet is ASCII. *)
Definition code_points (s : string) : list Z :=
  map (fun a => Z.of_nat (nat_of_ascii a)) (list_ascii_of_string s).

(** One inner [while True] loop of [decode_polyline], from [index] on:
    the value read and the characters left.  [None] is the [IndexError]
    of [encoded[index]] past the end of the string. *)
Fixpoint read_value (codes : list Z) (result shift : Z)
  : option (Z * list Z) :=
  match codes with
  | [] => None
  | c :: rest =>
      let b := (c - 63 - 1)%Z in
      let result := (result + Z.shiftl b shift)%Z in
      let shift := (shift + 5)%Z in
      if (b <? 31)%Z then Some (result, rest)
      else read_value rest result shift
  end.

(** [~(result >> 1) if (result & 1) else (result >> 1)] *)
Definition signed_delta (result : Z) : Z :=
  if negb (Z.land result 1 =? 0)%Z then Z.lnot (Z.shiftr result 1)
  else Z.shiftr result 1.

(** The outer loop.  Each round reads two values, so it consumes at least
    two characters; [fuel] bounds the number of rounds. *)
Fixpoint decode_loop (fuel : nat) (codes : list Z) (lat lng : Z)
  : option (list Coordinate) :=
  match codes with
  | [] => Some []
  | _ :: _ =>
      match fuel with
      | O => None
      | S fuel' =>
          r1 <- read_value codes 1 0 ;;
          let lat := (lat + signed_delta (fst r1))%Z in
          r2 <- read_value (snd r1) 1 0 ;;
          let lng := (lng + signed_delta (fst r2))%Z in
          coords <- decode_loop fuel' (snd r2) lat lng ;;
          Some ((inject_Z lat * (1 # 100000), inject_Z lng * (1 # 100000))
                  :: coords)
      end
  end.

Definition decode_polyline (encoded : string) : option (list Coordinate) :=
  let codes := code_points encoded in
  decode_loop (List.length codes) codes 0 0.

(** A character that ends a value: [b < 0x1f]. *)
Definition ends_value (c : Z) : bool := (c - 63 - 1 <? 31)%Z.

(** The string holds an even number of complete values and nothing after
    the last one. *)
Definition well_terminated (codes : list Z) : Prop :=
  Nat.even (List.length (filter ends_value codes)) = true /\
  (codes = [] \/ exists pre c, codes = pre ++ [c] /\ ends_value c = true).

(** The number written by the low five bits of [ord(c) - 63] of each
    character, least significant first. *)
Fixpoint base32 (codes : list Z) : Z :=
  match codes with
  | [] => 0
  | c :: rest => ((c - 63) mod 32 + 32 * base32 rest)%Z
  end.

(** * Properties *)

(** ** Prelude lemmas *)

Lemma Qlt_bool_iff (x y : Q) : Qlt_bool x y = true <-> x < y.
Proof.
  unfold Qlt_bool. rewrite negb_true_iff.
  destruct (Qle_bool y x) eqn:E.
  - apply Qle_bool_iff in E. split; [discriminate | intro H; exfalso; lra].
  - split; [intros _ | reflexivity].
    apply Qnot_le_lt. intro H. apply Qle_bool_iff in H. congruence.
Qed.

Lemma Qlt_bool_false_iff (x y : Q) : Qlt_bool x y = false <-> y <= x.
Proof.
  unfold Qlt_bool. rewrite negb_false_iff. apply Qle_bool_iff.
Qed.

Lemma Some_inj {A : Type} (a b : A) : Some a = Some b -> a = b.
Proof. congruence. Qed.

Lemma mapM_Forall2 {A B : Type} (f : A -> option B) (l : list A) (l' : list B) :
  mapM f l = Some l' -> Forall2 (fun a b => f a = Some b) l l'.
Proof.
  revert l'. induction l as [|a l IH]; simpl; intros l' H.
  - injection H as <-. constructor.
  - destruct (f a) as [b|] eqn:Ea; simpl in H; [|discriminate].
    destruct (mapM f l) as [bs|] eqn:El; simpl in H; [|discriminate].
    injection H as <-. constructor; auto.
Qed.

Lemma mapM_total {A B : Type} (f : A -> option B) (l : list A) :
  Forall (fun a => exists b, f a = Some b) l -> exists l', mapM f l = Some l'.
Proof.
  induction 1 as [|a l [b Hb] _ [bs Hbs]]; simpl.
  - eauto.
  - rewrite Hb, Hbs. simpl. eauto.
Qed.

Lemma mapM_length {A B : Type} (f : A -> option B) (l : list A) (l' : list B) :
  mapM f l = Some l' -> List.length l' = List.length l.
Proof.
  intro H. apply mapM_Forall2 in H. symmetry. eapply Forall2_length; eauto.
Qed.

Lemma py_index_nonneg {A : Type} (l : list A) (i : Z) :
  (0 <= i)%Z -> py_index l i = nth_error l (Z.to_nat i).
Proof.
  intro H. unfold py_index. apply Z.leb_le in H. now rewrite H.
Qed.

Lemma py_index_valid {A : Type} (l : list A) (i : Z) :
  (0 <= i < Z.of_nat (List.length l))%Z -> exists x, py_index l i = Some x.
Proof.
  intros [H0 H1]. rewrite py_index_nonneg by assumption.
  destruct (nth_error l (Z.to_nat i)) eqn:E; [eauto|].
  apply nth_error_None in E. lia.
Qed.

Lemma py_index_Some_bounds {A : Type} (l : list A) (i : Z) (x : A) :
  py_index l i = Some x ->
  (- Z.of_nat (List.length l) <= i < Z.of_nat (List.length l))%Z.
Proof.
  unfold py_index. destruct (0 <=? i)%Z eqn:E0.
  - intro H. apply Z.leb_le in E0.
    assert (Hn : nth_error l (Z.to_nat i) <> None) by congruence.
    apply nth_error_Some in Hn. lia.
  - apply Z.leb_gt in E0.
    destruct (- Z.of_nat (List.length l) <=? i)%Z eqn:E1; [|discriminate].
    apply Z.leb_le in E1. intros _. lia.
Qed.

Lemma py_range_length (a b : Z) :
  List.length (py_range a b) = Z.to_nat (b - a).
Proof.
  unfold py_range. now rewrite length_map, length_seq.
Qed.

Lemma py_range_In (a b i : Z) : In i (py_range a b) <-> (a <= i < b)%Z.
Proof.
  unfold py_range. rewrite in_map_iff. split.
  - intros [k [<- Hk]]. apply in_seq in Hk. lia.
  - intros H. exists (Z.to_nat (i - a)). split; [lia|].
    apply in_seq. lia.
Qed.

Lemma py_range_nth (a b : Z) (k : nat) :
  (k < Z.to_nat (b - a))%nat ->
  nth_error (py_range a b) k = Some (a + Z.of_nat k)%Z.
Proof.
  intro H. unfold py_range.
  rewrite nth_error_map, nth_error_seq.
  destruct (Nat.ltb_spec k (Z.to_nat (b - a))); [reflexivity | lia].
Qed.

Lemma route_len_pos (coords : list Coordinate) :
  coords <> [] -> (1 <= route_len_of coords)%Z.
Proof.
  unfold route_len_of. destruct coords; [congruence | simpl; lia].
Qed.

Lemma quot_index_bounds (i len count : Z) :
  (0 <= i < count)%Z -> (1 <= len)%Z ->
  (0 <= Z.quot (i * len) count < len)%Z.
Proof.
  intros Hi Hlen.
  rewrite Z.quot_div_nonneg by nia.
  split.
  - apply Z.div_pos; nia.
  - apply Z.div_lt_upper_bound; nia.
Qed.

(** ** The constructor *)

Lemma init_vehicle_spec (coords : list Coordinate) (count i : Z) (v : Vehicle) :
  (0 <= i < count)%Z ->
  init_vehicle coords count i = Some v ->
  coords <> [] /\
  index_in_range (route_len_of coords) v /\
  current_index v = Z.quot (i * route_len_of coords) count /\
  py_index coords (current_index v) = Some (current_position v) /\
  is_at_stop v = false /\ stop_wait_remaining v = 0 /\
  25 <= speed_kmh v.
Proof.
  intros Hi H. unfold init_vehicle in H.
  destruct (py_index coords (Z.quot (i * route_len_of coords) count))
    as [pos|] eqn:Ep; cbn [bind] in H; [|discriminate].
  assert (Hne : coords <> []).
  { intros ->. unfold py_index in Ep. simpl in Ep.
    rewrite Z.mul_0_r, Z.quot_0_l in Ep by lia. simpl in Ep. discriminate. }
  pose proof (quot_index_bounds i _ count Hi (route_len_pos _ Hne)) as Hb.
  destruct (Z.ltb_spec (Z.quot (i * route_len_of coords) count)
                       (route_len_of coords)) as [_|Hge]; [|lia].
  apply Some_inj in H. subst v. unfold index_in_range.
  cbn [current_index current_position is_at_stop stop_wait_remaining
       speed_kmh].
  refine (conj Hne (conj _ (conj eq_refl (conj Ep
            (conj eq_refl (conj eq_refl _)))))); [lia|].
  change 25 with (inject_Z 25). rewrite <- Zle_Qle.
  pose proof (Z.mod_pos_bound (i * 5) 15). lia.
Qed.

Lemma init_vehicle_total (coords : list Coordinate) (count i : Z) :
  coords <> [] -> (0 <= i < count)%Z ->
  exists v, init_vehicle coords count i = Some v.
Proof.
  intros Hne Hi. unfold init_vehicle.
  pose proof (quot_index_bounds i _ count Hi (route_len_pos _ Hne)) as Hb.
  destruct (py_index_valid coords (Z.quot (i * route_len_of coords) count))
    as [pos ->]; [exact Hb|].
  simpl. eauto.
Qed.

Lemma Forall2_Forall_r {A B : Type} (R : A -> B -> Prop) (P : A -> Prop)
  (Q : B -> Prop) (l : list A) (l' : list B) :
  (forall a b, P a -> R a b -> Q b) ->
  Forall P l -> Forall2 R l l' -> Forall Q l'.
Proof.
  intros HPQ HP HR. induction HR; constructor; inversion HP; subst; eauto.
Qed.

Lemma init_well_formed (coords : list Coordinate) (sts : list Stop)
  (requested : Z) (sim : BusSimulator) :
  init coords sts requested = Some sim -> well_formed sim.
Proof.
  unfold init. intro H.
  destruct (mapM (init_vehicle coords (Z.max 1 requested))
                 (py_range 0 (Z.max 1 requested))) as [vs|] eqn:Em;
    simpl in H; [|discriminate].
  injection H as <-.
  pose proof (mapM_length _ _ _ Em) as Hlen.
  rewrite py_range_length in Hlen.
  apply mapM_Forall2 in Em.
  assert (Hr : Forall (fun i => (0 <= i < Z.max 1 requested)%Z)
                      (py_range 0 (Z.max 1 requested))).
  { apply Forall_forall. intros i Hi. now apply py_range_In in Hi. }
  assert (Hall : Forall (fun v => coords <> [] /\
                           index_in_range (route_len_of coords) v /\
                           25 <= speed_kmh v) vs).
  { eapply Forall2_Forall_r; [| exact Hr | exact Em].
    intros i v Hi Hv. simpl in Hv.
    destruct (init_vehicle_spec _ _ _ _ Hi Hv) as (? & ? & _ & _ & _ & _ & ?).
    auto. }
  constructor; simpl.
  - destruct vs as [|v vs]; [simpl in Hlen; lia|].
    inversion Hall; subst. tauto.
  - rewrite Hlen. f_equal. lia.
  - lia.
  - eapply Forall_impl; [|exact Hall]. simpl. tauto.
  - eapply Forall_impl; [|exact Hall]. simpl. tauto.
Qed.

Lemma init_total (coords : list Coordinate) (sts : list Stop) (requested : Z) :
  coords <> [] -> exists sim, init coords sts requested = Some sim.
Proof.
  intro Hne. unfold init.
  destruct (mapM_total (init_vehicle coords (Z.max 1 requested))
                       (py_range 0 (Z.max 1 requested))) as [vs ->].
  - apply Forall_forall. intros i Hi. apply py_range_In in Hi.
    now apply init_vehicle_total.
  - simpl. eauto.
Qed.

(** ** One tick, one vehicle *)

Section Properties.

Variable dist : Q -> Q -> Q -> Q -> Q.

(** Splits an equation [update_vehicle ... = Some v'] along the branches of
    the loop body. *)
Ltac update_cases H :=
  unfold update_vehicle in H;
  repeat match type of H with
  | context [if is_at_stop ?v then _ else _] =>
      let E := fresh "Estop" in destruct (is_at_stop v) eqn:E
  | context [if Qle_bool ?a ?b then _ else _] =>
      let E := fresh "Ele" in destruct (Qle_bool a b) eqn:E
  | context [if Qeq_bool ?a ?b then _ else _] =>
      let E := fresh "Eeq" in destruct (Qeq_bool a b) eqn:E
  | context [if (?a <=? ?b)%Z then _ else _] =>
      let E := fresh "Ewrap" in destruct (a <=? b)%Z eqn:E
  | context [bind (py_index ?l ?i) _] =>
      let E := fresh "Eidx" in
      destruct (py_index l i) as [[? ?]|] eqn:E; cbn [bind] in H
  | context [let (_, _) := current_position ?v in _] =>
      let E := fresh "Epos" in destruct (current_position v) as [? ?] eqn:E
  | context [match stop_at ?d ?s ?t with _ => _ end] =>
      let E := fresh "Escan" in destruct (stop_at d s t) as [?|] eqn:E
  | context [if negb ?b then _ else _] =>
      let E := fresh "Eflag" in destruct b eqn:E; cbn [negb] in H
  end;
  try discriminate H; try (apply Some_inj in H; subst).

Lemma update_vehicle_frame (coords : list Coordinate) (sts : list Stop)
  (e : Q) (v v' : Vehicle) :
  update_vehicle dist coords sts e v = Some v' ->
  id v' = id v /\ speed_kmh v' = speed_kmh v.
Proof.
  intro H. update_cases H; split; reflexivity.
Qed.

Lemma update_vehicle_index (coords : list Coordinate) (sts : list Stop)
  (e : Q) (v v' : Vehicle) :
  index_in_range (route_len_of coords) v ->
  update_vehicle dist coords sts e v = Some v' ->
  index_in_range (route_len_of coords) v'.
Proof.
  unfold index_in_range. intros Hv H.
  update_cases H; cbn [current_index set_index set_position set_at_stop
                       set_wait] in *; unfold next_index; lia.
Qed.

Lemma update_vehicle_total (coords : list Coordinate) (sts : list Stop)
  (e : Q) (v : Vehicle) :
  index_in_range (route_len_of coords) v ->
  exists v', update_vehicle dist coords sts e v = Some v'.
Proof.
  unfold index_in_range, route_len_of. intros Hv.
  destruct (py_index_valid coords (current_index v)) as [[tlat tlon] Ht];
    [lia|].
  unfold update_vehicle, route_len_of.
  destruct (is_at_stop v).
  - destruct (Qle_bool _ _); eauto.
  - destruct (Z.leb_spec (Z.of_nat (List.length coords)) (current_index v));
      [lia|].
    rewrite Ht. cbn [bind].
    destruct (current_position v) as [clat clon].
    destruct (Qeq_bool _ _); [eauto|].
    destruct (Qle_bool _ _); [|eauto].
    destruct (negb _); eauto.
Qed.

(** A vehicle whose index is the last one keeps it, whatever the tick. *)
Lemma update_vehicle_last (coords : list Coordinate) (sts : list Stop)
  (e : Q) (v v' : Vehicle) :
  current_index v = (route_len_of coords - 1)%Z ->
  update_vehicle dist coords sts e v = Some v' ->
  current_index v' = (route_len_of coords - 1)%Z.
Proof.
  intros Hv H.
  update_cases H; cbn [current_index set_index set_position set_at_stop
                       set_wait] in *; unfold next_index; lia.
Qed.

(** ** Whole-engine steps and the invariant *)

Lemma update_positions_well_formed (e : Q) (sim sim' : BusSimulator) :
  well_formed sim -> update_positions dist e sim = Some sim' ->
  well_formed sim'.
Proof.
  intros [Hr Hf Hc Hi Hs] H. unfold update_positions in H.
  destruct (mapM _ (vehicles sim)) as [vs|] eqn:Em; cbn [bind] in H;
    [|discriminate].
  apply Some_inj in H. subst sim'.
  pose proof (mapM_length _ _ _ Em) as Hlen.
  apply mapM_Forall2 in Em.
  constructor; cbn [coordinates vehicles num_vehicles stops].
  - assumption.
  - congruence.
  - assumption.
  - eapply Forall2_Forall_r; [| exact Hi | exact Em].
    intros v v'. apply update_vehicle_index.
  - eapply Forall2_Forall_r; [| exact Hs | exact Em].
    intros v v' Hv Hu. cbv beta in Hu.
    apply update_vehicle_frame in Hu. destruct Hu as [_ ->]. exact Hv.
Qed.

(** The tick treats each vehicle on its own. *)
Lemma update_positions_nth (e : Q) (sim sim' : BusSimulator) (i : nat)
  (v : Vehicle) :
  update_positions dist e sim = Some sim' ->
  nth_error (vehicles sim) i = Some v ->
  exists v',
    nth_error (vehicles sim') i = Some v' /\
    update_vehicle dist (coordinates sim) (stops sim) e v = Some v'.
Proof.
  intros H Hv. unfold update_positions in H.
  destruct (mapM _ (vehicles sim)) as [vs|] eqn:Em; cbn [bind] in H;
    [|discriminate].
  apply Some_inj in H. subst sim'. cbn [vehicles].
  apply mapM_Forall2 in Em. revert i Hv.
  induction Em as [|x y l l' Hxy _ IH]; intros [|i] Hi; try discriminate;
    cbn [nth_error] in *.
  - apply Some_inj in Hi. subst x. eauto.
  - auto.
Qed.

Lemma update_positions_total (e : Q) (sim : BusSimulator) :
  well_formed sim -> exists sim', update_positions dist e sim = Some sim'.
Proof.
  intros [Hr Hf Hc Hi Hs]. unfold update_positions.
  destruct (mapM_total (update_vehicle dist (coordinates sim) (stops sim) e)
                       (vehicles sim)) as [vs ->].
  - eapply Forall_impl; [|exact Hi]. intros v. apply update_vehicle_total.
  - cbn [bind]. eauto.
Qed.

(** ** Route replacement *)

Lemma combine_nth_error {A B : Type} (l1 : list A) (l2 : list B) (i : nat)
  (a : A) (b : B) :
  nth_error l1 i = Some a -> nth_error l2 i = Some b ->
  nth_error (combine l1 l2) i = Some (a, b).
Proof.
  revert l2 i. induction l1 as [|x l1 IH]; intros [|y l2] [|i] H1 H2;
    try discriminate; simpl in *.
  - congruence.
  - auto.
Qed.

Lemma map_snd_combine_eq {A B : Type} (r : list A) (l : list B) :
  List.length r = List.length l -> map snd (combine r l) = l.
Proof.
  revert l. induction r as [|x r IH]; intros [|y l] H; try discriminate.
  - reflexivity.
  - simpl. f_equal. apply IH. simpl in H. lia.
Qed.

Lemma enumerate_nth {A : Type} (l : list A) (i : nat) (a : A) :
  nth_error l i = Some a -> nth_error (enumerate l) i = Some (Z.of_nat i, a).
Proof.
  intro H. unfold enumerate.
  apply combine_nth_error; [|exact H].
  rewrite py_range_nth.
  - reflexivity.
  - assert (i < List.length l)%nat by (apply nth_error_Some; congruence).
    lia.
Qed.

Lemma enumerate_In {A : Type} (l : list A) (i : Z) (a : A) :
  In (i, a) (enumerate l) ->
  (0 <= i < Z.of_nat (List.length l))%Z /\ In a l.
Proof.
  unfold enumerate. intro H. split.
  - apply in_combine_l in H. now apply py_range_In in H.
  - now apply in_combine_r in H.
Qed.

Lemma enumerate_length {A : Type} (l : list A) :
  List.length (enumerate l) = List.length l.
Proof.
  unfold enumerate. rewrite length_combine, py_range_length. lia.
Qed.

Lemma Forall2_nth {A B : Type} (R : A -> B -> Prop) (l : list A)
  (l' : list B) (i : nat) (a : A) :
  Forall2 R l l' -> nth_error l i = Some a ->
  exists b, nth_error l' i = Some b /\ R a b.
Proof.
  intro H. revert i. induction H as [|x y l l' Hxy _ IH]; intros [|i] Hi;
    try discriminate; simpl in *.
  - apply Some_inj in Hi. subst. eauto.
  - auto.
Qed.

Lemma Forall2_In_l {A B : Type} (R : A -> B -> Prop) (l : list A)
  (l' : list B) :
  Forall2 R l l' -> Forall2 (fun a b => In a l /\ R a b) l l'.
Proof.
  induction 1 as [|x y l l' Hxy _ IH]; constructor.
  - split; [now left | assumption].
  - eapply Forall2_impl; [|exact IH]. intros a b [Hin Hr].
    split; [now right | assumption].
Qed.

Lemma Forall2_ids (l l' : list Vehicle) :
  Forall2 (fun v v' => id v' = id v) l l' -> map id l' = map id l.
Proof.
  induction 1; simpl; congruence.
Qed.

Lemma reposition_spec (coords : list Coordinate) (count i : Z)
  (v v' : Vehicle) :
  coords <> [] -> (0 <= i < count)%Z ->
  reposition coords count (i, v) = Some v' ->
  current_index v' = (i * route_len_of coords / count)%Z /\
  index_in_range (route_len_of coords) v' /\
  py_index coords (current_index v') = Some (current_position v') /\
  is_at_stop v' = false /\ stop_wait_remaining v' = 0 /\
  id v' = id v /\ speed_kmh v' = speed_kmh v.
Proof.
  intros Hne Hi H. unfold reposition in H.
  replace (Z.max 1 count) with count in H by lia.
  pose proof (quot_index_bounds i _ count Hi (route_len_pos _ Hne)) as Hb.
  destruct (Z.ltb_spec (Z.quot (i * route_len_of coords) count)
                       (route_len_of coords)) as [_|Hge]; [|lia].
  destruct (py_index coords _) as [pos|] eqn:Ep; cbn [bind] in H;
    [|discriminate].
  apply Some_inj in H. subst v'. unfold index_in_range.
  cbn [current_index current_position is_at_stop stop_wait_remaining
       speed_kmh id].
  rewrite <- Z.quot_div_nonneg by nia.
  refine (conj eq_refl (conj _ (conj Ep (conj eq_refl (conj eq_refl
            (conj eq_refl eq_refl)))))).
  lia.
Qed.

Lemma reposition_total (coords : list Coordinate) (count i : Z) (v : Vehicle) :
  coords <> [] -> (0 <= i < count)%Z ->
  exists v', reposition coords count (i, v) = Some v'.
Proof.
  intros Hne Hi. unfold reposition.
  replace (Z.max 1 count) with count by lia.
  pose proof (quot_index_bounds i _ count Hi (route_len_pos _ Hne)) as Hb.
  destruct (Z.ltb_spec (Z.quot (i * route_len_of coords) count)
                       (route_len_of coords)) as [_|Hge]; [|lia].
  destruct (py_index_valid coords (Z.quot (i * route_len_of coords) count))
    as [pos ->]; [exact Hb|].
  cbn [bind]. eauto.
Qed.

(** What the loop of [set_route_coordinates] does to each vehicle. *)
Lemma reposition_all (coords : list Coordinate) (vs vs' : list Vehicle) :
  coords <> [] ->
  mapM (reposition coords (Z.of_nat (List.length vs))) (enumerate vs)
    = Some vs' ->
  Forall2 (fun iv v' =>
             current_index v' =
               (fst iv * route_len_of coords / Z.of_nat (List.length vs))%Z /\
             index_in_range (route_len_of coords) v' /\
             py_index coords (current_index v') = Some (current_position v') /\
             is_at_stop v' = false /\ stop_wait_remaining v' = 0 /\
             id v' = id (snd iv) /\ speed_kmh v' = speed_kmh (snd iv))
          (enumerate vs) vs'.
Proof.
  intros Hne Em. apply mapM_Forall2 in Em. apply Forall2_In_l in Em.
  eapply Forall2_impl; [|exact Em].
  intros [i v] v' [Hin Hv]. apply enumerate_In in Hin.
  apply reposition_spec in Hv; tauto.
Qed.

Lemma set_route_coordinates_total (coords : list Coordinate)
  (sim : BusSimulator) :
  exists sim', set_route_coordinates coords sim = Some sim'.
Proof.
  unfold set_route_coordinates. destruct coords as [|c cs]; [eauto|].
  destruct (mapM_total
              (reposition (c :: cs) (Z.of_nat (List.length (vehicles sim))))
              (enumerate (vehicles sim))) as [vs ->].
  - apply Forall_forall. intros [i v] Hin. apply enumerate_In in Hin.
    apply reposition_total; [discriminate | tauto].
  - cbn [bind]. eauto.
Qed.

Lemma set_route_coordinates_well_formed (coords : list Coordinate)
  (sim sim' : BusSimulator) :
  well_formed sim -> set_route_coordinates coords sim = Some sim' ->
  well_formed sim'.
Proof.
  intros Hwf H. unfold set_route_coordinates in H.
  destruct coords as [|c cs]; [congruence|].
  destruct (mapM _ (enumerate (vehicles sim))) as [vs|] eqn:Em;
    cbn [bind] in H; [|discriminate].
  apply Some_inj in H. subst sim'.
  pose proof (mapM_length _ _ _ Em) as Hlen. rewrite enumerate_length in Hlen.
  apply reposition_all in Em; [|discriminate].
  destruct Hwf as [Hr Hf Hc Hi Hs].
  assert (Hsp : Forall (fun iv : Z * Vehicle => 25 <= speed_kmh (snd iv))
                       (enumerate (vehicles sim))).
  { apply Forall_forall. intros [i v] Hin. apply enumerate_In in Hin.
    rewrite Forall_forall in Hs. apply Hs. tauto. }
  constructor; cbn [coordinates vehicles num_vehicles stops].
  - discriminate.
  - congruence.
  - assumption.
  - eapply Forall2_Forall_r; [| exact Hsp | exact Em].
    cbv beta. intros; tauto.
  - eapply Forall2_Forall_r; [| exact Hsp | exact Em].
    cbv beta. intros iv v' Hv (_ & _ & _ & _ & _ & _ & Hsame).
    now rewrite Hsame.
Qed.

Lemma step_well_formed (sim sim' : BusSimulator) :
  well_formed sim -> step dist sim sim' -> well_formed sim'.
Proof.
  intros Hwf Hstep. destruct Hstep as [s e s' H | s cs s' H].
  - eapply update_positions_well_formed; eauto.
  - eapply set_route_coordinates_well_formed; eauto.
Qed.

Lemma evolves_well_formed (sim0 sim : BusSimulator) :
  well_formed sim0 -> evolves dist sim0 sim -> well_formed sim.
Proof.
  intros Hwf H. induction H; [assumption|].
  eapply step_well_formed; eauto.
Qed.

Lemma reachable_well_formed (sim : BusSimulator) :
  reachable dist sim -> well_formed sim.
Proof.
  intros (coords & sts & requested & sim0 & Hinit & Hev).
  eapply evolves_well_formed; [|exact Hev].
  eapply init_well_formed; eauto.
Qed.

Lemma run_ticks_snoc (es : list Q) (e : Q) (sim : BusSimulator) :
  run_ticks dist (es ++ [e]) sim =
  (sim1 <- run_ticks dist es sim ;; update_positions dist e sim1).
Proof.
  revert sim. induction es as [|x es IH]; intro sim; cbn [run_ticks app bind].
  - destruct (update_positions dist e sim); reflexivity.
  - destruct (update_positions dist x sim); cbn [bind]; auto.
Qed.

Lemma run_ticks_evolves (es : list Q) (sim sim' : BusSimulator) :
  run_ticks dist es sim = Some sim' -> evolves dist sim sim'.
Proof.
  revert sim'. induction es as [|e es IH] using rev_ind; intros sim' H.
  - apply Some_inj in H. subst. constructor.
  - rewrite run_ticks_snoc in H.
    destruct (run_ticks dist es sim) as [s1|]; cbn [bind] in H;
      [|discriminate].
    eapply evolves_step; [apply IH; reflexivity|].
    eapply step_tick; eauto.
Qed.

Lemma run_ticks_total (es : list Q) (sim : BusSimulator) :
  well_formed sim -> exists sim', run_ticks dist es sim = Some sim'.
Proof.
  revert sim. induction es as [|e es IH]; intros sim Hwf; cbn [run_ticks].
  - eauto.
  - destruct (update_positions_total e sim Hwf) as [s1 H1]. rewrite H1.
    cbn [bind]. apply IH. eapply update_positions_well_formed; eauto.
Qed.

(** Neither mutator changes the fleet: same length, same ids, in order. *)
Lemma step_fleet (sim sim' : BusSimulator) :
  step dist sim sim' -> map id (vehicles sim') = map id (vehicles sim).
Proof.
  intros [s e s' H | s cs s' H].
  - unfold update_positions in H.
    destruct (mapM _ (vehicles s)) as [vs|] eqn:Em; cbn [bind] in H;
      [|discriminate].
    apply Some_inj in H. subst s'. cbn [vehicles].
    apply mapM_Forall2 in Em. apply Forall2_ids.
    eapply Forall2_impl; [|exact Em]. intros v v' Hv.
    now apply update_vehicle_frame in Hv.
  - unfold set_route_coordinates in H. destruct cs as [|c cs].
    + apply Some_inj in H. now subst s'.
    + destruct (mapM _ (enumerate (vehicles s))) as [vs|] eqn:Em;
        cbn [bind] in H; [|discriminate].
      apply Some_inj in H. subst s'. cbn [vehicles].
      apply reposition_all in Em; [|discriminate].
      assert (Hids : map id vs = map (fun iv => id (snd iv))
                                     (enumerate (vehicles s))).
      { induction Em as [|iv v' l l' Hv _ IH]; [reflexivity|].
        simpl. f_equal; [tauto | exact IH]. }
      rewrite Hids. unfold enumerate.
      rewrite <- (map_map snd id). f_equal.
      apply map_snd_combine_eq.
      now rewrite py_range_length, Z.sub_0_r, Nat2Z.id.
Qed.

Lemma evolves_fleet (sim0 sim : BusSimulator) :
  evolves dist sim0 sim -> map id (vehicles sim) = map id (vehicles sim0).
Proof.
  induction 1 as [|s s' _ IH Hstep]; [reflexivity|].
  apply step_fleet in Hstep. congruence.
Qed.

(** ** Claims about the index invariant and route replacement *)

(** C6.  In every engine state that the constructor, completed ticks and
    route replacements can produce, the route is non-empty and every
    vehicle's route index lies between 0 and the current route length
    minus one. *)
Theorem route_index_invariant (sim : BusSimulator) :
  reachable dist sim ->
  coordinates sim <> [] /\
  Forall (fun v =>
            (0 <= current_index v <= route_len_of (coordinates sim) - 1)%Z)
         (vehicles sim).
Proof.
  intro H. apply reachable_well_formed in H.
  destruct H as [Hr _ _ Hi _]. split; [exact Hr | exact Hi].
Qed.

(** C7.  Replacing the route by a non-empty sequence of length L succeeds,
    installs the sequence, keeps the stops and the fleet, and gives vehicle
    number i of N the index floor(i*L/N) clamped to L-1, the position of
    that coordinate, a cleared dwelling flag and a dwell-remaining of 0. *)
Theorem set_route_coordinates_repositions (coords : list Coordinate)
  (sim : BusSimulator) :
  coords <> [] ->
  exists sim',
    set_route_coordinates coords sim = Some sim' /\
    coordinates sim' = coords /\
    stops sim' = stops sim /\
    List.length (vehicles sim') = List.length (vehicles sim) /\
    forall (i : nat) (v : Vehicle),
      nth_error (vehicles sim) i = Some v ->
      exists v',
        nth_error (vehicles sim') i = Some v' /\
        current_index v' =
          Z.min (Z.of_nat i * route_len_of coords
                 / Z.of_nat (List.length (vehicles sim)))
                (route_len_of coords - 1) /\
        py_index coords (current_index v') = Some (current_position v') /\
        is_at_stop v' = false /\
        stop_wait_remaining v' = 0 /\
        id v' = id v /\ speed_kmh v' = speed_kmh v.
Proof.
  intro Hne.
  destruct (set_route_coordinates_total coords sim) as [sim' H].
  exists sim'. split; [exact H|].
  unfold set_route_coordinates in H.
  destruct coords as [|c cs]; [congruence|].
  destruct (mapM _ (enumerate (vehicles sim))) as [vs|] eqn:Em;
    cbn [bind] in H; [|discriminate].
  apply Some_inj in H. subst sim'. cbn [coordinates stops vehicles].
  pose proof (mapM_length _ _ _ Em) as Hlen. rewrite enumerate_length in Hlen.
  apply reposition_all in Em; [|discriminate].
  repeat split; try assumption.
  intros i v Hv.
  destruct (Forall2_nth _ _ _ i _ Em (enumerate_nth _ _ _ Hv))
    as (v' & Hv' & Hidx & Hrange & Hpos & Hflag & Hwait & Hid & Hsp).
  exists v'. cbn [fst snd] in *.
  refine (conj Hv' (conj _ (conj Hpos (conj Hflag (conj Hwait
            (conj Hid Hsp)))))).
  unfold index_in_range in Hrange. lia.
Qed.

(** ** Arrival at a coordinate *)

Lemma stop_at_first (sts pre post : list Stop) (s : Stop)
  (target : Coordinate) :
  sts = pre ++ s :: post ->
  Forall (fun s' => 0.02 <= distance_to_stop_from dist target s') pre ->
  distance_to_stop_from dist target s < 0.02 ->
  stop_at dist sts target = Some s.
Proof.
  intros -> Hpre Hs. unfold stop_at.
  induction Hpre as [|s' pre Hs' _ IH]; cbn [app find].
  - apply Qlt_bool_iff in Hs. now rewrite Hs.
  - apply Qlt_bool_false_iff in Hs'. now rewrite Hs'.
Qed.

Lemma stop_at_none (sts : list Stop) (target : Coordinate) :
  Forall (fun s => 0.02 <= distance_to_stop_from dist target s) sts ->
  stop_at dist sts target = None.
Proof.
  unfold stop_at. induction 1 as [|s sts Hs _ IH]; cbn [find].
  - reflexivity.
  - apply Qlt_bool_false_iff in Hs. now rewrite Hs.
Qed.

Lemma update_vehicle_arrival (coords : list Coordinate) (sts : list Stop)
  (e : Q) (v : Vehicle) (target : Coordinate) :
  is_at_stop v = false ->
  (current_index v < route_len_of coords)%Z ->
  py_index coords (current_index v) = Some target ->
  0 < distance_between dist (current_position v) target ->
  distance_between dist (current_position v) target
    <= speed_kmh v / 3600 * e ->
  update_vehicle dist coords sts e v = Some (arrived dist coords sts v target).
Proof.
  intros Hflag Hlt Htarget Hpos Hmove.
  unfold update_vehicle, arrived. rewrite Hflag.
  destruct (Z.leb_spec (route_len_of coords) (current_index v)); [lia|].
  rewrite Htarget. cbn [bind].
  unfold distance_between in Hpos, Hmove.
  destruct (current_position v) as [clat clon].
  destruct target as [tlat tlon]. cbn [fst snd] in Hpos, Hmove.
  destruct (Qeq_bool (dist clat clon tlat tlon) 0) eqn:Eeq.
  { apply Qeq_bool_eq in Eeq. lra. }
  apply Qle_bool_iff in Hmove. rewrite Hmove.
  destruct (stop_at dist sts (tlat, tlon)) as [s|].
  - reflexivity.
  - cbn [is_at_stop set_position negb]. rewrite Hflag. reflexivity.
Qed.

(** C5.  A Traveling vehicle at a positive distance from its target
    coordinate that can cover that distance within the tick (equality
    included) ends the tick exactly on the target coordinate.  If some stop
    is closer than 0.02 km to the target, the vehicle is Dwelling with the
    dwell duration of the first such stop and its index is unchanged;
    if none is, it stays Traveling and its index is advanced by one, clamped
    to the last index of the route. *)
Theorem arrival_snaps_then_dwells_or_advances (coords : list Coordinate)
  (sts : list Stop) (e : Q) (v : Vehicle) (target : Coordinate) :
  is_at_stop v = false ->
  (current_index v < route_len_of coords)%Z ->
  py_index coords (current_index v) = Some target ->
  0 < distance_between dist (current_position v) target ->
  distance_between dist (current_position v) target
    <= speed_kmh v / 3600 * e ->
  exists v',
    update_vehicle dist coords sts e v = Some v' /\
    current_position v' = target /\
    (forall (pre post : list Stop) (s : Stop),
        sts = pre ++ s :: post ->
        Forall (fun s' => 0.02 <= distance_to_stop_from dist target s') pre ->
        distance_to_stop_from dist target s < 0.02 ->
        is_at_stop v' = true /\
        stop_wait_remaining v' = stop_wait s /\
        current_index v' = current_index v) /\
    (Forall (fun s => 0.02 <= distance_to_stop_from dist target s) sts ->
     is_at_stop v' = false /\
     current_index v' =
       Z.min (current_index v + 1) (route_len_of coords - 1)).
Proof.
  intros Hflag Hlt Htarget Hpos Hmove.
  exists (arrived dist coords sts v target).
  split; [now apply update_vehicle_arrival|].
  unfold arrived. split; [|split].
  - destruct (stop_at dist sts target); reflexivity.
  - intros pre post s Hsts Hpre Hs.
    rewrite (stop_at_first _ _ _ _ _ Hsts Hpre Hs). auto.
  - intro Hnone. rewrite (stop_at_none _ _ Hnone).
    cbn [is_at_stop set_index set_position current_index].
    split; [exact Hflag | reflexivity].
Qed.


(** ** A tick of length 0 *)

Lemma mapM_Forall2_total {A B : Type} (f : A -> option B) (P : A -> Prop)
  (R : A -> B -> Prop) (l : list A) :
  (forall a, P a -> exists b, f a = Some b /\ R a b) ->
  Forall P l -> exists l', mapM f l = Some l' /\ Forall2 R l l'.
Proof.
  intros Hf. induction 1 as [|a l Ha _ [bs [Hbs HR]]]; cbn [mapM].
  - exists []. split; [reflexivity | constructor].
  - destruct (Hf a Ha) as [b [Hb Hab]]. rewrite Hb, Hbs. cbn [bind].
    exists (b :: bs). split; [reflexivity | now constructor].
Qed.

Lemma update_vehicle_zero (coords : list Coordinate) (sts : list Stop)
  (e : Q) (v : Vehicle) :
  e == 0 -> settled dist coords v ->
  exists v', update_vehicle dist coords sts e v = Some v' /\
             same_motion_state v v'.
Proof.
  intros He Hv. unfold settled in Hv. unfold update_vehicle, same_motion_state.
  destruct (is_at_stop v) eqn:Hflag.
  - cbn [stop_wait_remaining set_wait].
    assert (Hgt : Qle_bool (stop_wait_remaining v - e) 0 = false).
    { destruct (Qle_bool _ _) eqn:E; [|reflexivity].
      apply Qle_bool_iff in E. lra. }
    rewrite Hgt. eexists. split; [reflexivity|].
    cbn [current_index is_at_stop stop_wait_remaining current_position
         set_wait].
    repeat split; try assumption; try reflexivity. lra.
  - destruct Hv as (target & Hlt & Htarget & Hpos).
    destruct (Z.leb_spec (route_len_of coords) (current_index v)); [lia|].
    rewrite Htarget. cbn [bind]. unfold distance_between in Hpos.
    destruct (current_position v) as [clat clon] eqn:Ecur.
    destruct target as [tlat tlon]. cbn [fst snd] in Hpos.
    assert (Hmove : speed_kmh v / 3600 * e == 0) by (rewrite He; ring).
    destruct (Qeq_bool (dist clat clon tlat tlon) 0) eqn:Eeq.
    { apply Qeq_bool_eq in Eeq. lra. }
    destruct (Qle_bool (dist clat clon tlat tlon) (speed_kmh v / 3600 * e))
      eqn:Ele.
    { apply Qle_bool_iff in Ele. lra. }
    eexists. split; [reflexivity|].
    cbn [current_index is_at_stop stop_wait_remaining current_position
         set_position fst snd].
    repeat split; try assumption; try reflexivity.
    + unfold Qdiv at 1. rewrite Hmove. ring.
    + unfold Qdiv at 1. rewrite Hmove. ring.
Qed.

(** A Traveling vehicle that stands exactly on its target coordinate moves
    on to the next index, whatever the length of the tick. *)
Lemma update_vehicle_on_target (coords : list Coordinate) (sts : list Stop)
  (e : Q) (v : Vehicle) (target : Coordinate) :
  is_at_stop v = false ->
  (current_index v < route_len_of coords)%Z ->
  py_index coords (current_index v) = Some target ->
  distance_between dist (current_position v) target == 0 ->
  update_vehicle dist coords sts e v
    = Some (set_index v (next_index (route_len_of coords) (current_index v))).
Proof.
  intros Hflag Hlt Htarget Hzero. unfold update_vehicle. rewrite Hflag.
  destruct (Z.leb_spec (route_len_of coords) (current_index v)); [lia|].
  rewrite Htarget. cbn [bind]. unfold distance_between in Hzero.
  destruct (current_position v) as [clat clon].
  destruct target as [tlat tlon]. cbn [fst snd] in Hzero.
  apply Qeq_eq_bool in Hzero. now rewrite Hzero.
Qed.

(** C1, amended.  A tick of length 0 leaves the position, the index, the
    dwelling flag and the dwell-remaining of every vehicle as they were,
    provided each vehicle is either Dwelling with a positive dwell-remaining
    or Traveling at a positive distance from its target coordinate. *)
Theorem zero_tick_leaves_settled_fleet (e : Q) (sim : BusSimulator) :
  e == 0 ->
  Forall (settled dist (coordinates sim)) (vehicles sim) ->
  exists sim',
    update_positions dist e sim = Some sim' /\
    coordinates sim' = coordinates sim /\
    stops sim' = stops sim /\
    Forall2 same_motion_state (vehicles sim) (vehicles sim').
Proof.
  intros He Hall. unfold update_positions.
  destruct (mapM_Forall2_total
              (update_vehicle dist (coordinates sim) (stops sim) e)
              (settled dist (coordinates sim)) same_motion_state
              (vehicles sim)) as [vs [Hvs HR]].
  - intros v Hv. now apply update_vehicle_zero.
  - exact Hall.
  - rewrite Hvs. cbn [bind]. eexists. split; [reflexivity|].
    cbn [coordinates stops vehicles]. auto.
Qed.

(** ** Waiting out a dwell *)

Lemma update_vehicle_waiting (coords : list Coordinate) (sts : list Stop)
  (e : Q) (v : Vehicle) :
  is_at_stop v = true -> e < stop_wait_remaining v ->
  update_vehicle dist coords sts e v
    = Some (set_wait v (stop_wait_remaining v - e)).
Proof.
  intros Hflag He. unfold update_vehicle. rewrite Hflag.
  cbn [stop_wait_remaining set_wait].
  destruct (Qle_bool (stop_wait_remaining v - e) 0) eqn:E; [|reflexivity].
  apply Qle_bool_iff in E. lra.
Qed.

Lemma update_vehicle_resumes (coords : list Coordinate) (sts : list Stop)
  (e : Q) (v : Vehicle) :
  is_at_stop v = true -> stop_wait_remaining v <= e ->
  update_vehicle dist coords sts e v
    = Some (set_index (set_at_stop (set_wait v (stop_wait_remaining v - e))
                                   false)
                      (next_index (route_len_of coords) (current_index v))).
Proof.
  intros Hflag He. unfold update_vehicle. rewrite Hflag.
  cbn [stop_wait_remaining set_wait current_index].
  assert (E : Qle_bool (stop_wait_remaining v - e) 0 = true)
    by (apply Qle_bool_iff; lra).
  now rewrite E.
Qed.

Lemma run_vehicle_snoc (coords : list Coordinate) (sts : list Stop)
  (es : list Q) (e : Q) (v : Vehicle) :
  run_vehicle dist coords sts (es ++ [e]) v =
  (v1 <- run_vehicle dist coords sts es v ;;
   update_vehicle dist coords sts e v1).
Proof.
  revert v. induction es as [|x es IH]; intro v; cbn [run_vehicle app bind].
  - destruct (update_vehicle dist coords sts e v); reflexivity.
  - destruct (update_vehicle dist coords sts x v); cbn [bind]; auto.
Qed.

(** While the elapsed time summed over the ticks stays below the
    dwell-remaining, the vehicle keeps waiting where it is. *)
Lemma run_vehicle_waiting (coords : list Coordinate) (sts : list Stop)
  (es : list Q) (v : Vehicle) :
  is_at_stop v = true ->
  (forall k : nat, (1 <= k <= List.length es)%nat ->
                   sumQ (firstn k es) < stop_wait_remaining v) ->
  exists v1,
    run_vehicle dist coords sts es v = Some v1 /\
    is_at_stop v1 = true /\
    current_index v1 = current_index v /\
    current_position v1 = current_position v /\
    stop_wait_remaining v1 == stop_wait_remaining v - sumQ es.
Proof.
  revert v. induction es as [|x es IH]; intros v Hflag Hsum;
    cbn [run_vehicle].
  - exists v. cbn [sumQ]. repeat split; try assumption; try reflexivity.
    ring.
  - assert (Hx : x < stop_wait_remaining v).
    { specialize (Hsum 1%nat). cbn [firstn sumQ List.length] in Hsum.
      assert (H1 : (1 <= 1 <= S (List.length es))%nat) by lia.
      specialize (Hsum H1). lra. }
    rewrite (update_vehicle_waiting _ _ _ _ Hflag Hx). cbn [bind].
    destruct (IH (set_wait v (stop_wait_remaining v - x)))
      as (v1 & Hrun & Hf1 & Hi1 & Hp1 & Hw1).
    + exact Hflag.
    + intros k Hk. cbn [stop_wait_remaining set_wait].
      specialize (Hsum (S k)). cbn [firstn sumQ List.length] in Hsum.
      assert (HSk : (1 <= S k <= S (List.length es))%nat) by lia.
      specialize (Hsum HSk). lra.
    + exists v1. cbn [stop_wait_remaining set_wait current_index
                      current_position] in *.
      refine (conj Hrun (conj Hf1 (conj Hi1 (conj Hp1 _)))).
      cbn [sumQ]. rewrite Hw1. ring.
Qed.

(** The tick that brings the summed elapsed time to the dwell-remaining
    ends the wait: the vehicle is Traveling again, where it stood, and its
    index has gone through [next_index]. *)
Lemma run_vehicle_dwell_ends (coords : list Coordinate) (sts : list Stop)
  (es : list Q) (e : Q) (v : Vehicle) :
  is_at_stop v = true ->
  (forall k : nat, (1 <= k <= List.length es)%nat ->
                   sumQ (firstn k es) < stop_wait_remaining v) ->
  stop_wait_remaining v <= sumQ es + e ->
  exists v1 v2,
    run_vehicle dist coords sts es v = Some v1 /\
    is_at_stop v1 = true /\
    current_index v1 = current_index v /\
    run_vehicle dist coords sts (es ++ [e]) v = Some v2 /\
    is_at_stop v2 = false /\
    current_position v2 = current_position v /\
    current_index v2 = next_index (route_len_of coords) (current_index v).
Proof.
  intros Hflag Hsum Hend.
  destruct (run_vehicle_waiting coords sts es v Hflag Hsum)
    as (v1 & Hrun & Hf1 & Hi1 & Hp1 & Hw1).
  assert (He : stop_wait_remaining v1 <= e) by (rewrite Hw1; lra).
  pose proof (update_vehicle_resumes coords sts e v1 Hf1 He) as Hstep.
  assert (Hall : run_vehicle dist coords sts (es ++ [e]) v = Some
            (set_index (set_at_stop (set_wait v1 (stop_wait_remaining v1 - e))
                                    false)
                       (next_index (route_len_of coords) (current_index v1))))
    by (rewrite run_vehicle_snoc, Hrun; exact Hstep).
  eexists v1, _.
  refine (conj Hrun (conj Hf1 (conj Hi1 (conj Hall _)))).
  cbn [is_at_stop current_position current_index set_index set_at_stop
       set_wait].
  rewrite Hi1, Hp1. auto.
Qed.

(** C4, amended.  A Dwelling vehicle whose index is below the last index of
    the route keeps waiting, with its index unchanged, through every tick
    after which the summed elapsed time is still below its dwell-remaining
    D; the tick that brings the sum to D or more returns it to Traveling,
    and at that moment its index is exactly one more than when it was
    waiting. *)
Theorem dwell_ends_with_index_advanced (coords : list Coordinate)
  (sts : list Stop) (es : list Q) (e : Q) (v : Vehicle) :
  is_at_stop v = true ->
  (current_index v < route_len_of coords - 1)%Z ->
  (forall k : nat, (1 <= k <= List.length es)%nat ->
                   sumQ (firstn k es) < stop_wait_remaining v) ->
  stop_wait_remaining v <= sumQ es + e ->
  exists v1 v2,
    run_vehicle dist coords sts es v = Some v1 /\
    is_at_stop v1 = true /\
    current_index v1 = current_index v /\
    run_vehicle dist coords sts (es ++ [e]) v = Some v2 /\
    is_at_stop v2 = false /\
    current_index v2 = (current_index v + 1)%Z.
Proof.
  intros Hflag Hbelow Hsum Hend.
  destruct (run_vehicle_dwell_ends coords sts es e v Hflag Hsum Hend)
    as (v1 & v2 & Hrun & Hf1 & Hi1 & Hall & Hf2 & _ & Hi2).
  exists v1, v2.
  refine (conj Hrun (conj Hf1 (conj Hi1 (conj Hall (conj Hf2 _))))).
  rewrite Hi2. unfold next_index. lia.
Qed.

(** ** The ETA query *)

Lemma vehicle_by_id_Some (sim : BusSimulator) (vid : string) (v : Vehicle) :
  vehicle_by_id sim vid = Some v -> In v (vehicles sim) /\ id v = vid.
Proof.
  unfold vehicle_by_id. intro H. apply find_some in H.
  destruct H as [Hin Heq]. apply String.eqb_eq in Heq. auto.
Qed.

Lemma vehicle_by_id_None (sim : BusSimulator) (vid : string) :
  vehicle_by_id sim vid = None <->
  (forall v, In v (vehicles sim) -> id v <> vid).
Proof.
  unfold vehicle_by_id. split.
  - intros H v Hin Heq. apply (find_none _ _ H) in Hin.
    apply String.eqb_neq in Hin. contradiction.
  - intro H. destruct (find _ (vehicles sim)) as [v|] eqn:E; [|reflexivity].
    apply find_some in E. destruct E as [Hin Heq].
    apply String.eqb_eq in Heq. now apply H in Hin.
Qed.

Lemma stop_by_name_Some (sim : BusSimulator) (n : string) (s : Stop) :
  stop_by_name sim n = Some s -> In s (stops sim) /\ name s = n.
Proof.
  unfold stop_by_name. intro H. apply find_some in H.
  destruct H as [Hin Heq]. apply String.eqb_eq in Heq. auto.
Qed.

Lemma stop_by_name_None (sim : BusSimulator) (n : string) :
  stop_by_name sim n = None <->
  (forall s, In s (stops sim) -> name s <> n).
Proof.
  unfold stop_by_name. split.
  - intros H s Hin Heq. apply (find_none _ _ H) in Hin.
    apply String.eqb_neq in Hin. contradiction.
  - intro H. destruct (find _ (stops sim)) as [s|] eqn:E; [|reflexivity].
    apply find_some in E. destruct E as [Hin Heq].
    apply String.eqb_eq in Heq. now apply H in Hin.
Qed.

(** The walk over valid indices always ends, and it reports the stop as
    found exactly when one of the visited coordinates is within 0.05 km. *)
Lemma walk_spec (coords : list Coordinate) (s : Stop) (idxs : list Z)
  (total : Q) :
  (forall i, In i idxs -> (0 <= i < route_len_of coords)%Z) ->
  exists found total',
    walk dist coords s idxs total = Some (found, total') /\
    (found = true <->
     exists i c, In i idxs /\ py_index coords i = Some c /\
                 distance_to_stop_from dist c s < 0.05).
Proof.
  revert total. induction idxs as [|i idxs IH]; intros total Hvalid;
    cbn [walk].
  - exists false, total. split; [reflexivity|].
    split; [discriminate | intros (i & c & [] & _)].
  - destruct (py_index_valid coords i) as [c Hc];
      [apply Hvalid; now left|].
    rewrite Hc. cbn [bind].
    destruct (Qlt_bool (distance_to_stop_from dist c s) 0.05) eqn:Enear.
    + exists true, total. split; [reflexivity|].
      split; [intros _ | reflexivity].
      exists i, c. apply Qlt_bool_iff in Enear. split; [now left | auto].
    + assert (Htail : forall total1,
                exists found total',
                  walk dist coords s idxs total1 = Some (found, total') /\
                  (found = true <->
                   exists j c', In j (i :: idxs) /\
                                py_index coords j = Some c' /\
                                distance_to_stop_from dist c' s < 0.05)).
      { intro total1.
        destruct (IH total1) as (found & total' & Hw & Hiff).
        { intros j Hj. apply Hvalid. now right. }
        exists found, total'. split; [exact Hw|].
        rewrite Hiff. split.
        - intros (j & c' & Hj & Hrest). exists j, c'.
          split; [now right | exact Hrest].
        - intros (j & c' & [Hj | Hj] & Hpj & Hnear).
          + subst j. rewrite Hc in Hpj. apply Some_inj in Hpj. subst c'.
            apply Qlt_bool_iff in Hnear. congruence.
          + exists j, c'. auto. }
      destruct (Z.ltb_spec (i + 1) (route_len_of coords)) as [Hnext|Hlast].
      * destruct (py_index_valid coords (i + 1)) as [c1 Hc1].
        { specialize (Hvalid i (or_introl eq_refl)).
          unfold route_len_of in Hnext. lia. }
        rewrite Hc1. cbn [bind]. apply Htail.
      * apply Htail.
Qed.

(** No result of the per-vehicle query is the empty-fleet error. *)
Lemma eta_for_vehicle_not_empty_fleet (sim : BusSimulator)
  (vid sname : string) :
  calculate_eta_for_vehicle dist sim vid sname
    <> Some (eta_error "No vehicles available").
Proof.
  unfold calculate_eta_for_vehicle.
  destruct (vehicle_by_id sim vid) as [v|]; [|discriminate].
  destruct (stop_by_name sim sname) as [s|]; [|discriminate].
  destruct (if (current_index v <? route_len_of (coordinates sim))%Z
            then _ else _) as [start|]; cbn [bind]; [|discriminate].
  destruct (walk _ _ _ _ _) as [[found total]|]; cbn [bind]; [|discriminate].
  destruct found; cbn [negb]; [|discriminate].
  destruct (Qeq_bool _ _); discriminate.
Qed.

(** The query never reads [is_at_stop]: the stored dwell-remaining enters
    the total whether or not the vehicle is waiting. *)
Lemma eta_ignores_dwelling_flag (b : bool) (sim : BusSimulator)
  (vid sname : string) :
  calculate_eta_for_vehicle dist (with_dwelling_flag b sim) vid sname
  = calculate_eta_for_vehicle dist sim vid sname.
Proof.
  unfold calculate_eta_for_vehicle.
  assert (Hfind : vehicle_by_id (with_dwelling_flag b sim) vid
                  = option_map (fun v => set_at_stop v b)
                               (vehicle_by_id sim vid)).
  { unfold vehicle_by_id, with_dwelling_flag. cbn [vehicles].
    induction (vehicles sim) as [|v vs IH]; cbn [map find]; [reflexivity|].
    cbn [id set_at_stop].
    destruct (String.eqb (id v) vid); [reflexivity | exact IH]. }
  rewrite Hfind.
  destruct (vehicle_by_id sim vid) as [v|]; cbn [option_map]; reflexivity.
Qed.

(** C8, amended.  On a reachable engine the per-vehicle ETA query always
    returns a dictionary.  It carries a numeric ETA exactly when the vehicle
    id matches a vehicle, the stop name matches a stop and some coordinate
    from the vehicle's index on is within 0.05 km of that stop.  An unknown
    vehicle id gives 'Vehicle not found', whatever the stop name; with a
    known vehicle, an unknown stop name gives 'Stop not found' and a walk
    that reaches no such coordinate gives 'Stop not on remaining route'.
    A result with an error has no numeric ETA. *)
Theorem eta_for_vehicle_outcomes (sim : BusSimulator) (vid sname : string) :
  reachable dist sim ->
  exists r,
    calculate_eta_for_vehicle dist sim vid sname = Some r /\
    (eta_minutes r <> None <->
     exists v s, vehicle_by_id sim vid = Some v /\
                 stop_by_name sim sname = Some s /\
                 on_remaining_route dist (coordinates sim) v s) /\
    (vehicle_by_id sim vid = None -> r = eta_error "Vehicle not found") /\
    (vehicle_by_id sim vid <> None -> stop_by_name sim sname = None ->
     r = eta_error "Stop not found") /\
    (forall v s, vehicle_by_id sim vid = Some v ->
                 stop_by_name sim sname = Some s ->
                 ~ on_remaining_route dist (coordinates sim) v s ->
                 r = eta_error "Stop not on remaining route") /\
    (error r <> None -> eta_minutes r = None).
Proof.
  intro Hreach. apply reachable_well_formed in Hreach.
  destruct Hreach as [_ _ _ Hidx Hspeed].
  unfold calculate_eta_for_vehicle.
  destruct (vehicle_by_id sim vid) as [v|] eqn:Ev.
  2:{ eexists. split; [reflexivity|]. cbn [eta_minutes error eta_error].
      repeat split; try congruence.
      intros (v & s & Hv & _). discriminate. }
  destruct (stop_by_name sim sname) as [s|] eqn:Es.
  2:{ eexists. split; [reflexivity|]. cbn [eta_minutes error eta_error].
      repeat split; try congruence.
      intros (v' & s' & _ & Hs & _). discriminate. }
  destruct (vehicle_by_id_Some _ _ _ Ev) as [Hin _].
  rewrite Forall_forall in Hidx, Hspeed.
  specialize (Hidx v Hin). specialize (Hspeed v Hin).
  unfold index_in_range in Hidx.
  destruct (Z.ltb_spec (current_index v) (route_len_of (coordinates sim)));
    [|lia].
  destruct (py_index_valid (coordinates sim) (current_index v)) as [c0 Hc0];
    [unfold route_len_of in *; lia|].
  rewrite Hc0. cbn [bind].
  destruct (walk_spec (coordinates sim) s
              (py_range (current_index v) (route_len_of (coordinates sim)))
              (0 + distance_between dist (current_position v) c0))
    as (found & total & Hwalk & Hfound).
  { intros i Hi. apply py_range_In in Hi. lia. }
  rewrite Hwalk. cbn [bind].
  assert (Hroute : found = true <->
                   on_remaining_route dist (coordinates sim) v s).
  { rewrite Hfound. unfold on_remaining_route. split.
    - intros (i & c & Hi & Hrest). apply py_range_In in Hi. eauto.
    - intros (i & c & Hi & Hrest). exists i, c.
      split; [now apply py_range_In | exact Hrest]. }
  destruct found; cbn [negb].
  - assert (Hnz : Qeq_bool (speed_kmh v) 0 = false).
    { destruct (Qeq_bool (speed_kmh v) 0) eqn:E; [|reflexivity].
      apply Qeq_bool_eq in E. lra. }
    rewrite Hnz. eexists. split; [reflexivity|].
    cbn [eta_minutes error].
    split; [|repeat split; try congruence].
    + split; [intros _ | discriminate].
      exists v, s. repeat split. now apply Hroute.
    + intros v' s' Hv' Hs' Hnot. apply Some_inj in Hv', Hs'. subst v' s'.
      exfalso. apply Hnot. now apply Hroute.
  - eexists. split; [reflexivity|]. cbn [eta_minutes error eta_error].
    split; [|repeat split; try congruence].
    split; [congruence|].
    intros (v' & s' & Hv' & Hs' & Hon).
    apply Some_inj in Hv', Hs'. subst v' s'.
    apply Hroute in Hon. discriminate.
Qed.

(** ** The fleet *)

(** C9.  Construction from a non-empty route succeeds for every requested
    fleet size and yields max(1, requested) vehicles, hence at least one;
    every engine that evolves from it by ticks and route replacements has
    the same vehicles in the same order, and on it neither the status query
    nor the legacy ETA query takes its empty-fleet branch. *)
Theorem fleet_is_fixed_and_never_empty (coords : list Coordinate)
  (sts : list Stop) (requested : Z) :
  coords <> [] ->
  exists sim0,
    init coords sts requested = Some sim0 /\
    List.length (vehicles sim0) = Z.to_nat (Z.max 1 requested) /\
    (1 <= List.length (vehicles sim0))%nat /\
    forall sim,
      evolves dist sim0 sim ->
      List.length (vehicles sim) = List.length (vehicles sim0) /\
      map id (vehicles sim) = map id (vehicles sim0) /\
      get_status dist sim <> StatusEmpty /\
      forall stop_name,
        calculate_eta_to_stop dist sim stop_name
          <> Some (eta_error "No vehicles available").
Proof.
  intro Hne. destruct (init_total coords sts requested Hne) as [sim0 Hinit].
  exists sim0. split; [exact Hinit|].
  pose proof (init_well_formed _ _ _ _ Hinit) as Hwf0.
  assert (Hlen0 : List.length (vehicles sim0) = Z.to_nat (Z.max 1 requested)).
  { unfold init in Hinit.
    destruct (mapM _ _) as [vs|] eqn:Em; cbn [bind] in Hinit;
      [|discriminate].
    apply Some_inj in Hinit. subst sim0. cbn [vehicles].
    apply mapM_length in Em. rewrite py_range_length in Em.
    rewrite Em. f_equal. lia. }
  split; [exact Hlen0|]. split; [lia|].
  intros sim Hev.
  pose proof (evolves_fleet _ _ Hev) as Hids.
  assert (Hlen : List.length (vehicles sim) = List.length (vehicles sim0)).
  { rewrite <- (length_map id (vehicles sim)), Hids. apply length_map. }
  split; [exact Hlen|]. split; [exact Hids|].
  unfold get_status, calculate_eta_to_stop.
  destruct (vehicles sim) as [|v vs] eqn:Evs.
  { simpl in Hlen. lia. }
  split; [discriminate|].
  intro stop_name. apply eta_for_vehicle_not_empty_fleet.
Qed.

(** ** The last index is never left *)

Lemma update_positions_last (e : Q) (sim sim' : BusSimulator) :
  Forall (fun v => current_index v = (route_len_of (coordinates sim) - 1)%Z)
         (vehicles sim) ->
  update_positions dist e sim = Some sim' ->
  coordinates sim' = coordinates sim /\
  Forall (fun v => current_index v = (route_len_of (coordinates sim) - 1)%Z)
         (vehicles sim').
Proof.
  intros Hall H. unfold update_positions in H.
  destruct (mapM _ (vehicles sim)) as [vs|] eqn:Em; cbn [bind] in H;
    [|discriminate].
  apply Some_inj in H. subst sim'. cbn [coordinates vehicles].
  split; [reflexivity|].
  apply mapM_Forall2 in Em.
  eapply Forall2_Forall_r; [| exact Hall | exact Em].
  intros v v' Hv Hstep. cbv beta in *.
  eapply update_vehicle_last; eauto.
Qed.

Lemma run_ticks_last (es : list Q) (sim sim' : BusSimulator) :
  Forall (fun v => current_index v = (route_len_of (coordinates sim) - 1)%Z)
         (vehicles sim) ->
  run_ticks dist es sim = Some sim' ->
  Forall (fun v => current_index v = (route_len_of (coordinates sim) - 1)%Z)
         (vehicles sim').
Proof.
  revert sim. induction es as [|e es IH]; intros sim Hall H;
    cbn [run_ticks] in H.
  - apply Some_inj in H. now subst.
  - destruct (update_positions dist e sim) as [sim1|] eqn:E1;
      cbn [bind] in H; [|discriminate].
    destruct (update_positions_last _ _ _ Hall E1) as [Hc Hl].
    rewrite <- Hc in *. eapply IH; eauto.
Qed.

End Properties.

(** * Sample runs *)

Lemma sim2_constructed : init route2 stops2 1 = Some sim2.
Proof. reflexivity. Qed.

Lemma sim3_constructed : init route3 stops3 1 = Some sim3.
Proof. reflexivity. Qed.

Lemma sim2_reachable : reachable flat_distance sim2.
Proof.
  exists route2, stops2, 1%Z, sim2. split; [reflexivity | constructor].
Qed.

(** ** The last index on a sample route *)

(** C2.  On the two-point route the bus reaches index 1, the last one, with
    the second tick; from then on, whatever ticks follow, every tick
    completes and the index is still 1: it never returns to 0. *)
Theorem last_index_never_wraps :
  forall es : list Q,
  exists sim',
    init route2 stops2 1 = Some sim2 /\
    run_ticks flat_distance [0; 20000] sim2 = Some sim2_at_terminus /\
    map current_index (vehicles sim2_at_terminus) = [1%Z] /\
    run_ticks flat_distance es sim2_at_terminus = Some sim' /\
    map current_index (vehicles sim') = [1%Z].
Proof.
  intro es.
  assert (E1 : run_ticks flat_distance [0; 20000] sim2
               = Some sim2_at_terminus) by (vm_compute; reflexivity).
  assert (Hwf1 : well_formed sim2_at_terminus).
  { eapply evolves_well_formed; [|eapply run_ticks_evolves; exact E1].
    eapply init_well_formed. exact sim2_constructed. }
  destruct (run_ticks_total flat_distance es _ Hwf1) as [sim' E2].
  exists sim'. split; [reflexivity|].
  split; [exact E1|]. split; [reflexivity|]. split; [exact E2|].
  assert (Hlast0 : Forall (fun v => current_index v =
                     (route_len_of (coordinates sim2_at_terminus) - 1)%Z)
                     (vehicles sim2_at_terminus))
    by (repeat constructor).
  pose proof (run_ticks_last flat_distance es _ sim' Hlast0 E2) as Hlast.
  apply run_ticks_evolves in E2. apply evolves_fleet in E2.
  cbn [coordinates vehicles map sim2_at_terminus] in *.
  destruct (vehicles sim') as [|v [|v' vs]]; try discriminate.
  inversion Hlast; subst. cbn [map]. f_equal. assumption.
Qed.

(** ** A stale dwell-remaining in the ETA *)

(** C3.  The bus of [sim2] reaches the terminus stop, waits, and is sent on
    by a tick of 60 s, which leaves it Traveling with a stored
    dwell-remaining of -30 s.  Its ETA to the stop it stands on is then
    -0.5 minutes; with the stored value at 0 and everything else equal the
    ETA is 0. *)
Theorem eta_counts_stale_dwell_remaining :
  init route2 stops2 1 = Some sim2 /\
  run_ticks flat_distance [0; 20000; 60] sim2 = Some sim2_departed /\
  map is_at_stop (vehicles sim2_departed) = [false] /\
  calculate_eta_for_vehicle flat_distance sim2_departed "bus-1" "Terminus"
    = Some {| eta_minutes := Some (- (1 # 2)); distance_km := Some 0;
              error := None |} /\
  map is_at_stop (vehicles sim2_departed_cleared) = [false] /\
  calculate_eta_for_vehicle flat_distance sim2_departed_cleared
                            "bus-1" "Terminus"
    = Some {| eta_minutes := Some 0; distance_km := Some 0; error := None |}.
Proof.
  repeat split; vm_compute; reflexivity.
Qed.

(** ** Where the code departs from the stated property *)

(** C1 as stated fails on the engine just built: its bus stands exactly on
    coordinate 0, its target, and a tick of length 0 moves its index to 1. *)
Lemma zero_tick_advances_index_counterexample :
  init route2 stops2 1 = Some sim2 /\
  map current_index (vehicles sim2) = [0%Z] /\
  exists sim',
    update_positions flat_distance 0 sim2 = Some sim' /\
    map current_index (vehicles sim') = [1%Z] /\
    map current_index (vehicles sim') <> map current_index (vehicles sim2).
Proof.
  split; [reflexivity|]. split; [reflexivity|].
  eexists. split; [vm_compute; reflexivity|].
  split; [reflexivity | discriminate].
Qed.

(** C4 as stated fails at the last index: the bus waits at index 1 of the
    two-point route with 30 s to go; a tick of 30 s returns it to Traveling
    and its index is still 1, not 2. *)
Lemma dwell_at_last_index_counterexample :
  run_ticks flat_distance [0; 20000] sim2 = Some sim2_at_terminus /\
  vehicles sim2_at_terminus = [bus_waiting] /\
  is_at_stop bus_waiting = true /\
  stop_wait_remaining bus_waiting = 30 /\
  exists v',
    update_vehicle flat_distance route2 stops2 30 bus_waiting = Some v' /\
    is_at_stop v' = false /\
    current_index v' = current_index bus_waiting /\
    current_index v' <> (current_index bus_waiting + 1)%Z.
Proof.
  split; [vm_compute; reflexivity|].
  repeat (split; [reflexivity|]).
  eexists. split; [vm_compute; reflexivity|].
  repeat split. discriminate.
Qed.

(** C8 as stated fails when neither the vehicle id nor the stop name is
    known: the answer is 'Vehicle not found', not 'Stop not found'. *)
Lemma unknown_vehicle_first_counterexample :
  reachable flat_distance sim2 /\
  stop_by_name sim2 "Nowhere" = None /\
  calculate_eta_for_vehicle flat_distance sim2 "bus-9" "Nowhere"
    = Some (eta_error "Vehicle not found") /\
  calculate_eta_for_vehicle flat_distance sim2 "bus-9" "Nowhere"
    <> Some (eta_error "Stop not found").
Proof.
  split; [exact sim2_reachable|].
  split; [reflexivity|]. split; [reflexivity|].
  vm_compute. discriminate.
Qed.

(** ** The theorems at concrete inputs *)

Lemma zero_tick_leaves_settled_fleet_witness :
  exists sim',
    update_positions flat_distance 0 sim3_under_way = Some sim' /\
    Forall2 same_motion_state (vehicles sim3_under_way) (vehicles sim').
Proof.
  destruct (zero_tick_leaves_settled_fleet flat_distance 0 sim3_under_way)
    as (sim' & Hrun & _ & _ & Hsame).
  - reflexivity.
  - constructor; [|constructor].
    exists (0, 1). split; [reflexivity|]. split; [reflexivity|].
    vm_compute. reflexivity.
  - exists sim'. split; assumption.
Defined.

Lemma dwell_ends_with_index_advanced_witness :
  exists v2,
    run_vehicle flat_distance route3 stops3 ([10; 10] ++ [10]) bus_at_midway
      = Some v2 /\
    is_at_stop v2 = false /\
    current_index v2 = (1 + 1)%Z.
Proof.
  destruct (dwell_ends_with_index_advanced flat_distance route3 stops3
              [10; 10] 10 bus_at_midway)
    as (v1 & v2 & _ & _ & _ & Hrun & Hflag & Hidx).
  - reflexivity.
  - reflexivity.
  - intros k Hk. cbn [List.length] in Hk.
    destruct k as [|[|[|k]]]; [lia | | | lia]; vm_compute; reflexivity.
  - vm_compute. discriminate.
  - exists v2. repeat split; assumption.
Defined.

Lemma arrival_snaps_then_dwells_or_advances_witness :
  exists v',
    update_vehicle flat_distance route3 stops3 20000 bus_on_leg = Some v' /\
    current_position v' = (0, 1).
Proof.
  destruct (arrival_snaps_then_dwells_or_advances flat_distance route3 stops3
              20000 bus_on_leg (0, 1))
    as (v' & Hstep & Hpos & _).
  - reflexivity.
  - reflexivity.
  - reflexivity.
  - vm_compute. reflexivity.
  - vm_compute. discriminate.
  - exists v'. split; assumption.
Defined.

Lemma route_index_invariant_witness :
  coordinates sim3 <> [] /\
  Forall (fun v =>
            (0 <= current_index v <= route_len_of (coordinates sim3) - 1)%Z)
         (vehicles sim3).
Proof.
  apply (route_index_invariant flat_distance sim3).
  exists route3, stops3, 1%Z, sim3. split; [reflexivity | constructor].
Defined.

Lemma set_route_coordinates_repositions_witness :
  exists sim',
    set_route_coordinates route3 sim2 = Some sim' /\
    coordinates sim' = route3 /\ stops sim' = stops sim2.
Proof.
  destruct (set_route_coordinates_repositions route3 sim2)
    as (sim' & Hset & Hcoords & Hstops & _).
  - discriminate.
  - exists sim'. repeat split; assumption.
Defined.

Lemma eta_for_vehicle_outcomes_witness :
  exists r,
    calculate_eta_for_vehicle flat_distance sim2 "bus-1" "Terminus" = Some r /\
    (error r <> None -> eta_minutes r = None).
Proof.
  destruct (eta_for_vehicle_outcomes flat_distance sim2 "bus-1" "Terminus")
    as (r & Hr & _ & _ & _ & _ & Herr).
  - exists route2, stops2, 1%Z, sim2. split; [reflexivity | constructor].
  - exists r. split; assumption.
Defined.

Lemma fleet_is_fixed_and_never_empty_witness :
  exists sim0,
    init route2 stops2 (-4) = Some sim0 /\
    List.length (vehicles sim0) = Z.to_nat (Z.max 1 (-4)).
Proof.
  destruct (fleet_is_fixed_and_never_empty flat_distance route2 stops2 (-4))
    as (sim0 & Hinit & Hlen & _).
  - discriminate.
  - exists sim0. split; assumption.
Defined.


(** * Further properties of the simulator *)

(** ** Vehicle ids *)

Lemma to_int_proper (z : Z) :
  Z.to_int z <> Decimal.Pos Decimal.Nil /\
  Z.to_int z <> Decimal.Neg Decimal.Nil.
Proof.
  rewrite <- (DecimalZ.of_to z), DecimalZ.to_of.
  destruct (Z.to_int z) as [d|d]; cbn [Decimal.norm].
  - split; [|discriminate].
    intro H. apply (DecimalFacts.unorm_nonnil d). congruence.
  - destruct (Decimal.nzhead d); split; discriminate.
Qed.

Lemma bus_id_inj (i j : Z) : bus_id i = bus_id j -> i = j.
Proof.
  unfold bus_id. intro H.
  assert (Hs : NilZero.string_of_int (Z.to_int (i + 1))
               = NilZero.string_of_int (Z.to_int (j + 1))).
  { cbn [String.append] in H. congruence. }
  destruct (to_int_proper (i + 1)) as [Hp Hn].
  destruct (to_int_proper (j + 1)) as [Hp' Hn'].
  pose proof (NilZero.isi _ Hp Hn) as Hi.
  pose proof (NilZero.isi _ Hp' Hn') as Hj.
  rewrite Hs in Hi. rewrite Hi in Hj. apply Some_inj in Hj.
  apply DecimalZ.to_int_inj in Hj. lia.
Qed.

Lemma py_range_NoDup (a b : Z) : NoDup (py_range a b).
Proof.
  unfold py_range. apply NoDup_map_NoDup_ForallPairs.
  - intros x y _ _ H. lia.
  - apply seq_NoDup.
Qed.

Lemma init_ids (coords : list Coordinate) (sts : list Stop) (requested : Z)
  (sim : BusSimulator) :
  init coords sts requested = Some sim ->
  map id (vehicles sim) = map bus_id (py_range 0 (num_vehicles sim)).
Proof.
  unfold init. intro H.
  destruct (mapM _ _) as [vs|] eqn:Em; cbn [bind] in H; [|discriminate].
  apply Some_inj in H. subst sim. cbn [vehicles num_vehicles].
  apply mapM_Forall2 in Em.
  induction Em as [|i v l l' Hv _ IH]; [reflexivity|].
  cbn [map]. f_equal; [|exact IH].
  unfold init_vehicle in Hv.
  destruct (py_index coords _); cbn [bind] in Hv; [|discriminate].
  apply Some_inj in Hv. now subst v.
Qed.

Lemma step_num_vehicles (dist : Q -> Q -> Q -> Q -> Q)
  (sim sim' : BusSimulator) :
  step dist sim sim' -> num_vehicles sim' = num_vehicles sim.
Proof.
  intros [s e s' H | s cs s' H].
  - unfold update_positions in H.
    destruct (mapM _ _); cbn [bind] in H; [|discriminate].
    apply Some_inj in H. now subst s'.
  - unfold set_route_coordinates in H. destruct cs.
    + apply Some_inj in H. now subst s'.
    + destruct (mapM _ _); cbn [bind] in H; [|discriminate].
      apply Some_inj in H. now subst s'.
Qed.

Lemma find_by_id_NoDup (l : list Vehicle) (v : Vehicle) :
  NoDup (map id l) -> In v l ->
  find (fun w => String.eqb (id w) (id v)) l = Some v.
Proof.
  induction l as [|w l IH]; intros Hnd Hin; [contradiction|].
  cbn [map] in Hnd. inversion Hnd as [|? ? Hnotin Hnd']; subst.
  cbn [find]. destruct Hin as [-> | Hin].
  - now rewrite String.eqb_refl.
  - destruct (String.eqb (id w) (id v)) eqn:E; [|now apply IH].
    apply String.eqb_eq in E. exfalso. apply Hnotin. rewrite E.
    now apply in_map.
Qed.

Lemma reachable_ids_named (dist : Q -> Q -> Q -> Q -> Q)
  (sim : BusSimulator) :
  reachable dist sim ->
  map id (vehicles sim) = map bus_id (py_range 0 (num_vehicles sim)).
Proof.
  intros (coords & sts & requested & sim0 & Hinit & Hev).
  rewrite (evolves_fleet dist _ _ Hev), (init_ids _ _ _ _ Hinit).
  f_equal. f_equal. clear Hinit.
  induction Hev as [|s s' _ IH Hstep]; [reflexivity|].
  apply step_num_vehicles in Hstep. congruence.
Qed.

Lemma bus_ids_NoDup (a b : Z) : NoDup (map bus_id (py_range a b)).
Proof.
  apply NoDup_map_NoDup_ForallPairs.
  - intros x y _ _. apply bus_id_inj.
  - apply py_range_NoDup.
Qed.

(** X1.  In every reachable engine the vehicles are named bus-1, bus-2, ...,
    bus-N in fleet order, N being the size fixed at construction; the ids
    are pairwise distinct, so looking a vehicle up by its id returns that
    very vehicle. *)
Theorem vehicle_ids_identify (dist : Q -> Q -> Q -> Q -> Q)
  (sim : BusSimulator) :
  reachable dist sim ->
  map id (vehicles sim) = map bus_id (py_range 0 (num_vehicles sim)) /\
  NoDup (map id (vehicles sim)) /\
  forall v, In v (vehicles sim) -> vehicle_by_id sim (id v) = Some v.
Proof.
  intro Hreach. pose proof (reachable_ids_named dist sim Hreach) as Hids.
  assert (Hnd : NoDup (map id (vehicles sim)))
    by (rewrite Hids; apply bus_ids_NoDup).
  split; [exact Hids|]. split; [exact Hnd|].
  intros v Hin. unfold vehicle_by_id. now apply find_by_id_NoDup.
Qed.

Section MoreProperties.

Variable dist : Q -> Q -> Q -> Q -> Q.

(** ** What a tick leaves alone *)

(** X2.  A completed tick never touches the route, the stops or the fleet
    size, and it leaves every vehicle its id and its speed. *)
Theorem tick_keeps_route_and_fleet (e : Q) (sim sim' : BusSimulator) :
  update_positions dist e sim = Some sim' ->
  coordinates sim' = coordinates sim /\
  stops sim' = stops sim /\
  num_vehicles sim' = num_vehicles sim /\
  map id (vehicles sim') = map id (vehicles sim) /\
  map speed_kmh (vehicles sim') = map speed_kmh (vehicles sim).
Proof.
  intro H. unfold update_positions in H.
  destruct (mapM _ (vehicles sim)) as [vs|] eqn:Em; cbn [bind] in H;
    [|discriminate].
  apply Some_inj in H. subst sim'.
  cbn [coordinates stops num_vehicles vehicles].
  repeat (split; [reflexivity|]).
  apply mapM_Forall2 in Em.
  induction Em as [|v v' l l' Hv _ [IH1 IH2]]; [split; reflexivity|].
  apply update_vehicle_frame in Hv. destruct Hv as [Hid Hsp].
  cbn [map]. split; congruence.
Qed.

(** ** The first tick after construction or route replacement *)

Lemma init_parks (coords : list Coordinate) (sts : list Stop) (requested : Z)
  (sim : BusSimulator) :
  init coords sts requested = Some sim ->
  Forall (parked_on_target (coordinates sim)) (vehicles sim).
Proof.
  unfold init. intro H.
  destruct (mapM _ _) as [vs|] eqn:Em; cbn [bind] in H; [|discriminate].
  apply Some_inj in H. subst sim. cbn [coordinates vehicles].
  apply mapM_Forall2 in Em. apply Forall2_In_l in Em.
  eapply Forall2_Forall_r with (P := fun _ => True);
    [| apply Forall_forall; auto | exact Em].
  intros i v _ [Hin Hv]. apply py_range_In in Hin.
  destruct (init_vehicle_spec _ _ _ _ Hin Hv)
    as (_ & Hidx & _ & Hpos & Hflag & _).
  unfold parked_on_target, index_in_range in *.
  split; [exact Hflag|]. split; [lia | exact Hpos].
Qed.

Lemma set_route_coordinates_parks (coords : list Coordinate)
  (sim sim' : BusSimulator) :
  coords <> [] -> set_route_coordinates coords sim = Some sim' ->
  Forall (parked_on_target (coordinates sim')) (vehicles sim').
Proof.
  intros Hne H. unfold set_route_coordinates in H.
  destruct coords as [|c cs]; [congruence|].
  destruct (mapM _ _) as [vs|] eqn:Em; cbn [bind] in H; [|discriminate].
  apply Some_inj in H. subst sim'. cbn [coordinates vehicles].
  apply reposition_all in Em; [|discriminate].
  eapply Forall2_Forall_r with (P := fun _ => True);
    [| apply Forall_forall; auto | exact Em].
  intros iv v _ (_ & Hidx & Hpos & Hflag & _).
  unfold parked_on_target, index_in_range in *.
  split; [exact Hflag|]. split; [lia | exact Hpos].
Qed.

(** X3.  When the distance between coincident points is 0, the first tick
    after the constructor or after a route replacement moves no vehicle,
    whatever its length: every vehicle stays Traveling where it stands and
    only its index moves on by one, clamped to the last index.  A stop on
    the coordinate where a vehicle was placed is therefore never served. *)
Theorem first_tick_only_advances_indices (e : Q) (sim : BusSimulator) :
  (forall lat lon, dist lat lon lat lon == 0) ->
  ((exists coords sts requested, init coords sts requested = Some sim) \/
   (exists coords sim0, coords <> [] /\
                        set_route_coordinates coords sim0 = Some sim)) ->
  exists sim',
    update_positions dist e sim = Some sim' /\
    Forall2 (fun v v' =>
               current_index v' =
                 Z.min (current_index v + 1)
                       (route_len_of (coordinates sim) - 1) /\
               current_position v' = current_position v /\
               is_at_stop v' = false /\
               stop_wait_remaining v' = stop_wait_remaining v)
            (vehicles sim) (vehicles sim').
Proof.
  intros Hzero Hfresh.
  assert (Hparked : Forall (parked_on_target (coordinates sim))
                           (vehicles sim)).
  { destruct Hfresh as [(coords & sts & requested & Hinit)
                       | (coords & sim0 & Hne & Hset)].
    - eapply init_parks; eauto.
    - eapply set_route_coordinates_parks; eauto. }
  unfold update_positions.
  destruct (mapM_Forall2_total
              (update_vehicle dist (coordinates sim) (stops sim) e)
              (parked_on_target (coordinates sim))
              (fun v v' =>
                 current_index v' =
                   Z.min (current_index v + 1)
                         (route_len_of (coordinates sim) - 1) /\
                 current_position v' = current_position v /\
                 is_at_stop v' = false /\
                 stop_wait_remaining v' = stop_wait_remaining v)
              (vehicles sim)) as [vs [Hvs HR]].
  - intros v (Hflag & Hidx & Hpos).
    rewrite (update_vehicle_on_target dist _ _ e v (current_position v));
      try assumption; try lia.
    + eexists. split; [reflexivity|].
      cbn [current_index current_position is_at_stop stop_wait_remaining
           set_index]. auto.
    + unfold distance_between. apply Hzero.
  - exact Hparked.
  - rewrite Hvs. cbn [bind]. eexists. split; [reflexivity | exact HR].
Qed.

(** ** Moving along a leg *)

(** X4.  A Traveling vehicle that cannot reach its target coordinate within
    a tick of non-negative length stays Traveling with the same index, and
    its new latitude and longitude each lie between the old value and the
    target's: it neither overshoots nor moves backwards. *)
Theorem partial_move_stays_on_leg (coords : list Coordinate)
  (sts : list Stop) (e : Q) (v : Vehicle) (target : Coordinate) :
  is_at_stop v = false ->
  (current_index v < route_len_of coords)%Z ->
  py_index coords (current_index v) = Some target ->
  0 <= speed_kmh v / 3600 * e ->
  speed_kmh v / 3600 * e < distance_between dist (current_position v) target ->
  exists v',
    update_vehicle dist coords sts e v = Some v' /\
    is_at_stop v' = false /\
    current_index v' = current_index v /\
    stop_wait_remaining v' = stop_wait_remaining v /\
    (fst (current_position v) <= fst target ->
     fst (current_position v) <= fst (current_position v') <= fst target) /\
    (fst target <= fst (current_position v) ->
     fst target <= fst (current_position v') <= fst (current_position v)) /\
    (snd (current_position v) <= snd target ->
     snd (current_position v) <= snd (current_position v') <= snd target) /\
    (snd target <= snd (current_position v) ->
     snd target <= snd (current_position v') <= snd (current_position v)).
Proof.
  intros Hflag Hlt Htarget Hmove Hshort.
  unfold update_vehicle. rewrite Hflag.
  destruct (Z.leb_spec (route_len_of coords) (current_index v)); [lia|].
  rewrite Htarget. cbn [bind]. unfold distance_between in Hshort.
  destruct (current_position v) as [clat clon].
  destruct target as [tlat tlon]. cbn [fst snd] in *.
  set (d := dist clat clon tlat tlon) in *.
  set (m := speed_kmh v / 3600 * e) in *.
  destruct (Qeq_bool d 0) eqn:Eeq.
  { apply Qeq_bool_eq in Eeq. lra. }
  destruct (Qle_bool d m) eqn:Ele.
  { apply Qle_bool_iff in Ele. lra. }
  eexists. split; [reflexivity|].
  cbn [is_at_stop current_index stop_wait_remaining current_position
       set_position fst snd].
  assert (Hd : 0 < d) by lra.
  assert (Hr0 : 0 <= m / d).
  { apply Qle_shift_div_l; [exact Hd | lra]. }
  assert (Hr1 : m / d <= 1).
  { apply Qle_shift_div_r; [exact Hd | lra]. }
  repeat split; try assumption; try reflexivity; nra.
Qed.

(** ** Route replacement forgets the past *)

Lemma reposition_same_identity (coords : list Coordinate) (count : Z)
  (r : list Z) (vs ws : list Vehicle) :
  Forall2 (fun v w => id w = id v /\ speed_kmh w = speed_kmh v) vs ws ->
  mapM (reposition coords count) (combine r ws)
  = mapM (reposition coords count) (combine r vs).
Proof.
  intro H. revert r. induction H as [|v w vs ws [Hid Hsp] _ IH]; intro r.
  - now destruct r.
  - destruct r as [|i r]; [reflexivity|]. cbn [combine mapM].
    rewrite IH. unfold reposition. rewrite Hid, Hsp. reflexivity.
Qed.

Lemma Forall2_combine_r {A B C : Type} (R : A * B -> C -> Prop)
  (r : list A) (l : list B) (l' : list C) :
  List.length r = List.length l ->
  Forall2 R (combine r l) l' ->
  Forall2 (fun b c => exists a, R (a, b) c) l l'.
Proof.
  revert l l'. induction r as [|a r IH]; intros [|b l] l' Hlen H;
    try discriminate; cbn [combine] in H.
  - inversion H. constructor.
  - inversion H as [|? c ? l'' Hab Hrest]; subst.
    constructor; [eauto|]. apply IH; [simpl in Hlen; lia | exact Hrest].
Qed.

(** X5.  A route replacement depends on the previous state only through
    the fleet (ids, speeds, order), the stops and the fleet size: replacing
    the route by [coords2] gives the same engine whether or not another
    replacement came first.  In particular a replacement is idempotent. *)
Theorem set_route_coordinates_absorbs (coords1 coords2 : list Coordinate)
  (sim sim1 : BusSimulator) :
  coords2 <> [] ->
  set_route_coordinates coords1 sim = Some sim1 ->
  set_route_coordinates coords2 sim1 = set_route_coordinates coords2 sim.
Proof.
  intros Hne H1. unfold set_route_coordinates in H1.
  destruct coords1 as [|c1 cs1].
  { apply Some_inj in H1. now subst sim1. }
  destruct (mapM _ (enumerate (vehicles sim))) as [vs1|] eqn:Em;
    cbn [bind] in H1; [|discriminate].
  apply Some_inj in H1. subst sim1.
  pose proof (mapM_length _ _ _ Em) as Hlen. rewrite enumerate_length in Hlen.
  apply reposition_all in Em; [|discriminate].
  unfold enumerate in Em. apply Forall2_combine_r in Em.
  2:{ now rewrite py_range_length, Z.sub_0_r, Nat2Z.id. }
  unfold set_route_coordinates. destruct coords2 as [|c2 cs2]; [congruence|].
  cbn [vehicles stops num_vehicles]. unfold enumerate. rewrite Hlen.
  rewrite (reposition_same_identity (c2 :: cs2) _ _ (vehicles sim) vs1).
  - reflexivity.
  - eapply Forall2_impl; [|exact Em]. cbv beta.
    intros v w (i & _ & _ & _ & _ & _ & Hid & Hsp). auto.
Qed.

(** ** How the constructor spreads the fleet *)

Lemma div_index_mono (i j len count : Z) :
  (0 <= i <= j)%Z -> (0 < count)%Z -> (0 <= len)%Z ->
  (i * len / count <= j * len / count)%Z.
Proof.
  intros Hij Hc Hl. apply Z.div_le_mono; nia.
Qed.

Lemma div_index_strict (i j len count : Z) :
  (0 <= i < j)%Z -> (0 < count <= len)%Z ->
  (i * len / count < j * len / count)%Z.
Proof.
  intros Hij Hc.
  assert (H1 : ((i * len + 1 * count) / count <= j * len / count)%Z)
    by (apply Z.div_le_mono; nia).
  rewrite Z.div_add in H1 by lia. lia.
Qed.

(** X6.  On a non-empty route of length L the constructor succeeds and
    places vehicle number i of the N = max(1, requested) vehicles on
    coordinate floor(i*L/N), Traveling, with no dwell time stored and with
    speed 25, 30 or 35 km/h according to i mod 3.  Vehicle 0 starts on
    coordinate 0, later vehicles never start behind earlier ones, and when
    N <= L no two vehicles start on the same index. *)
Theorem init_spreads_fleet (coords : list Coordinate) (sts : list Stop)
  (requested : Z) :
  coords <> [] ->
  exists sim,
    init coords sts requested = Some sim /\
    coordinates sim = coords /\ stops sim = sts /\
    (forall (i : nat) (v : Vehicle),
        nth_error (vehicles sim) i = Some v ->
        current_index v =
          (Z.of_nat i * route_len_of coords / Z.max 1 requested)%Z /\
        py_index coords (current_index v) = Some (current_position v) /\
        is_at_stop v = false /\
        stop_wait_remaining v = 0 /\
        speed_kmh v = inject_Z (25 + 5 * (Z.of_nat i mod 3))) /\
    (forall (i j : nat) (v w : Vehicle),
        nth_error (vehicles sim) i = Some v ->
        nth_error (vehicles sim) j = Some w ->
        (i <= j)%nat ->
        (current_index v <= current_index w)%Z /\
        ((i < j)%nat -> (Z.max 1 requested <= route_len_of coords)%Z ->
         (current_index v < current_index w)%Z)).
Proof.
  intro Hne. destruct (init_total coords sts requested Hne) as [sim Hinit].
  exists sim. split; [exact Hinit|].
  pose proof (route_len_pos _ Hne) as Hlen.
  unfold init in Hinit.
  destruct (mapM _ _) as [vs|] eqn:Em; cbn [bind] in Hinit; [|discriminate].
  apply Some_inj in Hinit. subst sim. cbn [coordinates stops vehicles].
  split; [reflexivity|]. split; [reflexivity|].
  pose proof (mapM_length _ _ _ Em) as Hvs. rewrite py_range_length in Hvs.
  apply mapM_Forall2 in Em.
  assert (Hnth : forall (i : nat) (v : Vehicle),
             nth_error vs i = Some v ->
             (0 <= Z.of_nat i < Z.max 1 requested)%Z /\
             init_vehicle coords (Z.max 1 requested) (Z.of_nat i) = Some v).
  { intros i v Hv.
    assert (Hi : (i < List.length vs)%nat)
      by (apply nth_error_Some; congruence).
    assert (Hr : nth_error (py_range 0 (Z.max 1 requested)) i
                 = Some (0 + Z.of_nat i)%Z) by (apply py_range_nth; lia).
    assert (Hflip : Forall2 (fun v i => init_vehicle coords
                               (Z.max 1 requested) i = Some v)
                            vs (py_range 0 (Z.max 1 requested))).
    { clear - Em. induction Em; constructor; auto. }
    destruct (Forall2_nth _ _ _ i v Hflip Hv) as (k & Hk & Hkv).
    rewrite Hr in Hk. apply Some_inj in Hk. subst k.
    rewrite Z.add_0_l in Hkv. split; [lia | exact Hkv]. }
  assert (Hidx : forall (i : nat) (v : Vehicle),
             nth_error vs i = Some v ->
             current_index v =
               (Z.of_nat i * route_len_of coords / Z.max 1 requested)%Z).
  { intros i v Hv. destruct (Hnth i v Hv) as [Hi Hiv].
    destruct (init_vehicle_spec _ _ _ _ Hi Hiv) as (_ & _ & Hq & _).
    rewrite Hq. apply Z.quot_div_nonneg; nia. }
  split.
  - intros i v Hv. destruct (Hnth i v Hv) as [Hi Hiv].
    destruct (init_vehicle_spec _ _ _ _ Hi Hiv)
      as (_ & _ & _ & Hpos & Hflag & Hwait & _).
    refine (conj (Hidx i v Hv) (conj Hpos (conj Hflag (conj Hwait _)))).
    unfold init_vehicle in Hiv.
    destruct (py_index coords _); cbn [bind] in Hiv; [|discriminate].
    apply Some_inj in Hiv. subst v. cbn [speed_kmh]. f_equal. f_equal.
    replace (Z.of_nat i * 5)%Z with (5 * Z.of_nat i)%Z by lia.
    change 15%Z with (5 * 3)%Z. rewrite Z.mul_mod_distr_l by lia.
    reflexivity.
  - intros i j v w Hv Hw Hij.
    rewrite (Hidx i v Hv), (Hidx j w Hw).
    destruct (Hnth j w Hw) as [Hj _].
    split.
    + apply div_index_mono; lia.
    + intros Hlt Hfit. apply div_index_strict; lia.
Qed.

(** ** The value of the ETA *)

Lemma py_range_cons (a b : Z) :
  (a < b)%Z -> py_range a b = a :: py_range (a + 1) b.
Proof.
  intro H. unfold py_range.
  replace (Z.to_nat (b - a)) with (S (Z.to_nat (b - (a + 1)))) by lia.
  cbn [seq map]. f_equal; [lia|].
  rewrite <- seq_shift, map_map. apply map_ext. intro k. lia.
Qed.

Lemma py_range_empty (a b : Z) : (b <= a)%Z -> py_range a b = [].
Proof.
  intro H. unfold py_range.
  replace (Z.to_nat (b - a)) with 0%nat by lia. reflexivity.
Qed.

Lemma py_index_coordinate_at (coords : list Coordinate) (i : Z) :
  (0 <= i < route_len_of coords)%Z ->
  py_index coords i = Some (coordinate_at coords i).
Proof.
  unfold route_len_of, coordinate_at. intro H.
  rewrite py_index_nonneg by lia. apply nth_error_nth'. lia.
Qed.



(** ** Nearest-first scans *)

(** The scan keeps the first element of least distance: everything before
    it is strictly farther, nothing after it is nearer. *)
Lemma nearer_by_scan {A : Type} (d : A -> Q) (l : list A) :
  match fold_left (nearer_by d) l None with
  | None => l = []
  | Some (x, m) =>
      m = d x /\
      exists pre post,
        l = pre ++ x :: post /\
        Forall (fun y => m < d y) pre /\
        Forall (fun y => m <= d y) post
  end.
Proof.
  induction l as [|y l IH] using rev_ind; [reflexivity|].
  rewrite fold_left_app. cbn [fold_left].
  destruct (fold_left (nearer_by d) l None) as [[x m]|].
  - destruct IH as (Hm & pre & post & Hl & Hpre & Hpost).
    unfold nearer_by. destruct (Qlt_bool (d y) m) eqn:E.
    + apply Qlt_bool_iff in E. split; [reflexivity|]. subst m.
      exists l, []. split; [reflexivity|]. split; [|constructor].
      subst l. apply Forall_app. split.
      * eapply Forall_impl; [|exact Hpre]. cbv beta. intros; lra.
      * constructor; [lra|].
        eapply Forall_impl; [|exact Hpost]. cbv beta. intros; lra.
    + apply Qlt_bool_false_iff in E. split; [exact Hm|].
      exists pre, (post ++ [y]). subst l.
      split; [now rewrite <- app_assoc|]. split; [exact Hpre|].
      apply Forall_app. split; [exact Hpost|]. constructor; [exact E|].
      constructor.
  - subst l. cbn [nearer_by app]. split; [reflexivity|].
    exists [], []. repeat split; constructor.
Qed.

(** X8.  [find_nearest_stop] finds nothing exactly when the fleet or the
    stop list is empty.  Otherwise it returns a configured stop together
    with its distance from the first vehicle; no stop is nearer, and every
    stop listed before it is strictly farther. *)
Theorem find_nearest_stop_is_first_nearest (sim : BusSimulator) :
  (find_nearest_stop dist sim = None <->
   vehicles sim = [] \/ stops sim = []) /\
  (forall s m,
      find_nearest_stop dist sim = Some (s, m) ->
      exists v rest pre post,
        vehicles sim = v :: rest /\
        m = distance_to_stop_from dist (current_position v) s /\
        stops sim = pre ++ s :: post /\
        Forall (fun s' => m < distance_to_stop_from dist
                                (current_position v) s') pre /\
        Forall (fun s' => m <= distance_to_stop_from dist
                                 (current_position v) s') post).
Proof.
  unfold find_nearest_stop. destruct (vehicles sim) as [|v rest].
  { split; [split; auto | discriminate]. }
  change (nearer dist (current_position v))
    with (nearer_by (distance_to_stop_from dist (current_position v))).
  pose proof (nearer_by_scan
                (distance_to_stop_from dist (current_position v))
                (stops sim)) as H.
  destruct (fold_left _ (stops sim) None) as [[x m]|].
  - destruct H as (Hm & pre & post & Hl & Hpre & Hpost). split.
    + split; [discriminate|]. intros [Hv | Hs]; [discriminate|].
      rewrite Hs in Hl. now destruct pre.
    + intros s m' Heq. apply Some_inj in Heq.
      assert (x = s) by congruence. assert (m = m') by congruence.
      subst x m'. exists v, rest, pre, post. auto.
  - split; [split; auto | discriminate].
Qed.

(** X9.  On a reachable engine the status is that of the first vehicle: its
    position, moving exactly when it is not waiting at a stop, with speed 0
    while it waits and its own speed, at least 25 km/h, while it moves.
    The nearest stop and its distance are missing exactly when no stop is
    configured; a reported name is the name of a configured stop. *)
Theorem status_reports_first_vehicle (sim : BusSimulator) :
  reachable dist sim ->
  exists v rest nearest dstop sp,
    vehicles sim = v :: rest /\
    get_status dist sim
    = Status (current_position v) (negb (is_at_stop v)) nearest dstop sp /\
    (is_at_stop v = true -> sp = 0) /\
    (is_at_stop v = false -> sp = speed_kmh v /\ 25 <= sp) /\
    (nearest = None <-> stops sim = []) /\
    (dstop = None <-> stops sim = []) /\
    (forall n, nearest = Some n -> exists s, In s (stops sim) /\ name s = n).
Proof.
  intro Hreach. apply reachable_well_formed in Hreach.
  destruct Hreach as [_ Hfleet Hcount _ Hspeed].
  unfold get_status, find_nearest_stop.
  destruct (vehicles sim) as [|v rest] eqn:Evs.
  { simpl in Hfleet. lia. }
  exists v, rest. do 3 eexists. split; [reflexivity|].
  split; [reflexivity|].
  inversion Hspeed as [|? ? Hv _]; subst.
  change (nearer dist (current_position v))
    with (nearer_by (distance_to_stop_from dist (current_position v))).
  pose proof (nearer_by_scan
                (distance_to_stop_from dist (current_position v))
                (stops sim)) as Hscan.
  split; [destruct (is_at_stop v); [reflexivity | discriminate]|].
  split; [intros ->; cbn [negb]; auto|].
  destruct (fold_left _ (stops sim) None) as [[s m]|];
    cbn [option_map fst snd].
  - destruct Hscan as (_ & pre & post & Hst & _).
    assert (Hne : stops sim <> []) by (rewrite Hst; now destruct pre).
    split; [split; [discriminate | contradiction]|].
    split; [split; [discriminate | contradiction]|].
    intros n Hn. apply Some_inj in Hn. subst n. exists s.
    rewrite Hst. split; [apply in_elt | reflexivity].
  - split; [tauto|]. split; [tauto|]. discriminate.
Qed.


(** ** ETA for every stop *)

Lemma eta_for_known_vehicle_and_stop (sim : BusSimulator) (vid sname : string)
  (v : Vehicle) (s : Stop) :
  well_formed sim ->
  vehicle_by_id sim vid = Some v ->
  stop_by_name sim sname = Some s ->
  exists r,
    calculate_eta_for_vehicle dist sim vid sname = Some r /\
    ((exists m, eta_minutes r = Some m) /\ error r = None \/
     r = eta_error "Stop not on remaining route").
Proof.
  intros [_ _ _ Hidx Hspeed] Hv Hs.
  destruct (vehicle_by_id_Some _ _ _ Hv) as [Hin _].
  rewrite Forall_forall in Hidx, Hspeed.
  specialize (Hidx v Hin). specialize (Hspeed v Hin).
  unfold index_in_range in Hidx.
  unfold calculate_eta_for_vehicle. rewrite Hv, Hs.
  destruct (Z.ltb_spec (current_index v) (route_len_of (coordinates sim)));
    [|lia].
  rewrite py_index_coordinate_at by lia. cbn [bind].
  destruct (walk_spec dist (coordinates sim) s
              (py_range (current_index v) (route_len_of (coordinates sim)))
              (0 + distance_between dist (current_position v)
                     (coordinate_at (coordinates sim) (current_index v))))
    as (found & total & Hwalk & _).
  { intros i Hi. apply py_range_In in Hi. lia. }
  rewrite Hwalk. cbn [bind].
  destruct found; cbn [negb]; [|eauto].
  assert (Hnz : Qeq_bool (speed_kmh v) 0 = false).
  { destruct (Qeq_bool (speed_kmh v) 0) eqn:E; [|reflexivity].
    apply Qeq_bool_eq in E. lra. }
  rewrite Hnz. eexists. split; [reflexivity|]. left.
  cbn [eta_minutes error]. eauto.
Qed.

Lemma stop_by_name_listed (sim : BusSimulator) (s : Stop) :
  In s (stops sim) -> exists s', stop_by_name sim (name s) = Some s'.
Proof.
  intro Hin. destruct (stop_by_name sim (name s)) as [s'|] eqn:E; [eauto|].
  exfalso. apply (proj1 (stop_by_name_None sim (name s)) E s Hin).
  reflexivity.
Qed.

(** X11.  On a reachable engine [get_all_eta] returns one entry per
    configured stop, in the order of the stops and under their names.  Each
    entry is the ETA of the first vehicle to that stop: either a numeric
    ETA without an error, or the error 'Stop not on remaining route'; the
    'not found' and empty-fleet errors never appear. *)
Theorem get_all_eta_covers_every_stop (sim : BusSimulator) :
  reachable dist sim ->
  exists v rest etas,
    vehicles sim = v :: rest /\
    get_all_eta dist sim = Some etas /\
    map fst etas = map name (stops sim) /\
    forall n r,
      In (n, r) etas ->
      calculate_eta_for_vehicle dist sim (id v) n = Some r /\
      ((exists m, eta_minutes r = Some m) /\ error r = None \/
       r = eta_error "Stop not on remaining route").
Proof.
  intro Hreach. apply reachable_well_formed in Hreach.
  pose proof Hreach as [_ Hfleet Hcount _ _].
  destruct (vehicles sim) as [|v rest] eqn:Evs.
  { simpl in Hfleet. lia. }
  exists v, rest.
  assert (Hv0 : vehicle_by_id sim (id v) = Some v).
  { unfold vehicle_by_id. rewrite Evs. cbn [find].
    now rewrite String.eqb_refl. }
  unfold get_all_eta.
  destruct (mapM_Forall2_total
              (fun stop =>
                 eta_data <- calculate_eta_to_stop dist sim (name stop) ;;
                 Some (name stop, eta_data))
              (fun stop => In stop (stops sim))
              (fun stop (entry : string * EtaDict) =>
                 fst entry = name stop /\
                 calculate_eta_for_vehicle dist sim (id v) (fst entry)
                 = Some (snd entry) /\
                 ((exists m, eta_minutes (snd entry) = Some m) /\
                  error (snd entry) = None \/
                  snd entry = eta_error "Stop not on remaining route"))
              (stops sim)) as [etas [Hetas HR]].
  - intros stop Hin. unfold calculate_eta_to_stop. rewrite Evs.
    destruct (stop_by_name_listed sim stop Hin) as [s' Hs'].
    destruct (eta_for_known_vehicle_and_stop sim (id v) (name stop) v s'
                Hreach Hv0 Hs') as (r & Hr & Hcases).
    rewrite Hr. cbn [bind]. eexists. split; [reflexivity|].
    cbn [fst snd]. auto.
  - apply Forall_forall. auto.
  - exists etas. split; [reflexivity|]. split; [exact Hetas|]. split.
    + clear Hetas. induction HR as [|stop entry l l' [Hn _] _ IH];
        [reflexivity|]. cbn [map]. now rewrite Hn, IH.
    + intros n r Hin.
      assert (Hall : Forall (fun entry : string * EtaDict =>
                 calculate_eta_for_vehicle dist sim (id v) (fst entry)
                 = Some (snd entry) /\
                 ((exists m, eta_minutes (snd entry) = Some m) /\
                  error (snd entry) = None \/
                  snd entry = eta_error "Stop not on remaining route"))
                etas).
      { eapply Forall2_Forall_r with (P := fun _ => True);
          [| apply Forall_forall; auto | exact HR].
        cbv beta. intros; tauto. }
      rewrite Forall_forall in Hall. apply (Hall (n, r) Hin).
Qed.

(** ** The vehicle with the least ETA *)




(** ** Vehicles between two stops *)

Lemma stop_ordinal_from (n : string) (l : list Stop) :
  forall a : Z,
    match option_map fst
            (find (fun p : Z * Stop => String.eqb (name (snd p)) n)
                  (combine (py_range a (a + Z.of_nat (List.length l))) l))
    with
    | Some z => exists k, z = (a + Z.of_nat k)%Z /\ first_named l n k
    | None => forall k, ~ first_named l n k
    end.
Proof.
  induction l as [|s l IH]; intro a.
  - rewrite py_range_empty by (simpl; lia). cbn [combine find option_map].
    intros k [[s [Hs _]] _]. now destruct k.
  - rewrite py_range_cons by (cbn [List.length]; lia).
    replace (a + Z.of_nat (List.length (s :: l)))%Z
      with (a + 1 + Z.of_nat (List.length l))%Z
      by (cbn [List.length]; lia).
    cbn [combine find snd].
    destruct (String.eqb (name s) n) eqn:E.
    + apply String.eqb_eq in E. cbn [option_map fst].
      exists 0%nat. split; [lia|]. split; [exists s; auto|].
      intros k' s' Hk'. lia.
    + apply String.eqb_neq in E. specialize (IH (a + 1)%Z).
      destruct (option_map fst (find _ _)) as [z|].
      * destruct IH as (k & Hz & [[sk [Hsk Hname]] Hfirst]).
        exists (S k). split; [lia|]. split; [exists sk; auto|].
        intros [|k'] s' Hk' Hs'.
        -- cbn [nth_error] in Hs'. apply Some_inj in Hs'. now subst s'.
        -- cbn [nth_error] in Hs'. eapply Hfirst; [|exact Hs']. lia.
      * intros [|k] [[sk [Hsk Hname]] Hfirst].
        -- cbn [nth_error] in Hsk. apply Some_inj in Hsk. now subst sk.
        -- apply (IH k). split; [exists sk; auto|].
           intros k' s' Hk' Hs'. apply (Hfirst (S k') s'); [lia | exact Hs'].
Qed.

Lemma first_named_unique (sts : list Stop) (n : string) (k k' : nat) :
  first_named sts n k -> first_named sts n k' -> k = k'.
Proof.
  intros [[s [Hs Hn]] Hfirst] [[s' [Hs' Hn']] Hfirst'].
  destruct (Nat.lt_trichotomy k k') as [Hlt | [Heq | Hgt]]; [|exact Heq|].
  - exfalso. eapply Hfirst'; eauto.
  - exfalso. eapply Hfirst; eauto.
Qed.

Lemma stop_ordinal_spec (sts : list Stop) (n : string) :
  match stop_ordinal sts n with
  | Some z => exists k, z = Z.of_nat k /\ first_named sts n k
  | None => forall k, ~ first_named sts n k
  end.
Proof.
  unfold stop_ordinal, enumerate.
  pose proof (stop_ordinal_from n sts 0) as H. rewrite Z.add_0_l in H.
  destruct (option_map fst (find _ _)) as [z|]; [|exact H].
  destruct H as (k & Hz & Hk). exists k. split; [lia | exact Hk].
Qed.

(** X13.  [get_vehicles_for_stops] lists exactly the vehicles whose route
    index is at most the position of the destination stop in the stop
    list, provided both names are known and the first stop called
    [from_stop] comes strictly before the first stop called [to_stop].
    In every other case (an unknown name, the same stop twice, the wrong
    order) the list is empty. *)
Theorem vehicles_for_stops_membership (sim : BusSimulator)
  (from_stop to_stop : string) (b : VehicleBrief) :
  In b (get_vehicles_for_stops sim from_stop to_stop) <->
  exists kf kt v,
    first_named (stops sim) from_stop kf /\
    first_named (stops sim) to_stop kt /\
    (kf < kt)%nat /\
    In v (vehicles sim) /\
    (current_index v <= Z.of_nat kt)%Z /\
    b = {| brief_id := id v; brief_position := current_position v;
           brief_current_index := current_index v |}.
Proof.
  unfold get_vehicles_for_stops.
  pose proof (stop_ordinal_spec (stops sim) from_stop) as Hf.
  pose proof (stop_ordinal_spec (stops sim) to_stop) as Ht.
  destruct (stop_ordinal (stops sim) from_stop) as [zf|].
  2:{ split; [intros []|]. intros (kf & _ & _ & Hkf & _).
      now apply Hf in Hkf. }
  destruct Hf as (kf & -> & Hkf).
  destruct (stop_ordinal (stops sim) to_stop) as [zt|].
  2:{ split; [intros []|]. intros (_ & kt & _ & _ & Hkt & _).
      now apply Ht in Hkt. }
  destruct Ht as (kt & -> & Hkt).
  destruct (Z.leb_spec (Z.of_nat kt) (Z.of_nat kf)) as [Hle | Hlt].
  - split; [intros []|].
    intros (kf' & kt' & _ & Hkf' & Hkt' & Hlt & _).
    rewrite (first_named_unique _ _ _ _ Hkf Hkf') in Hle.
    rewrite (first_named_unique _ _ _ _ Hkt Hkt') in Hle. lia.
  - rewrite in_map_iff. split.
    + intros (v & Hb & Hin). apply filter_In in Hin.
      destruct Hin as [Hin Hidx]. apply Z.leb_le in Hidx.
      exists kf, kt, v.
      refine (conj Hkf (conj Hkt (conj _ (conj Hin (conj Hidx _)))));
        [lia | now symmetry].
    + intros (kf' & kt' & v & Hkf' & Hkt' & _ & Hin & Hidx & ->).
      rewrite (first_named_unique _ _ _ _ Hkt' Hkt) in Hidx.
      exists v. split; [reflexivity|]. apply filter_In.
      split; [exact Hin|]. now apply Z.leb_le.
Qed.

(** ** Notifications *)


End MoreProperties.

(** * Polyline decoding *)

(** ** Where the decoder fails *)

Lemma read_value_None (codes : list Z) (result shift : Z) :
  read_value codes result shift = None <-> filter ends_value codes = [].
Proof.
  revert result shift. induction codes as [|c rest IH]; intros result shift;
    cbn [read_value filter].
  - tauto.
  - unfold ends_value at 1. destruct (c - 63 - 1 <? 31)%Z.
    + split; discriminate.
    + apply IH.
Qed.

Lemma read_value_Some (codes : list Z) (result shift r : Z) (rest : list Z) :
  read_value codes result shift = Some (r, rest) ->
  exists grp c,
    codes = grp ++ c :: rest /\
    filter ends_value grp = [] /\ ends_value c = true.
Proof.
  revert result shift. induction codes as [|c codes IH];
    intros result shift H; cbn [read_value] in H; [discriminate|].
  destruct (c - 63 - 1 <? 31)%Z eqn:E.
  - apply Some_inj in H. exists [], c.
    assert (codes = rest) by congruence. subst. auto.
  - destruct (IH _ _ H) as (grp & c' & Hcodes & Hgrp & Hc').
    exists (c :: grp), c'. subst codes. cbn [app filter].
    unfold ends_value at 1. rewrite E. auto.
Qed.

Lemma well_terminated_step (g1 g2 rest : list Z) (c1 c2 : Z) :
  filter ends_value g1 = [] -> ends_value c1 = true ->
  filter ends_value g2 = [] -> ends_value c2 = true ->
  List.length (filter ends_value (g1 ++ c1 :: g2 ++ c2 :: rest))
  = S (S (List.length (filter ends_value rest))) /\
  (well_terminated (g1 ++ c1 :: g2 ++ c2 :: rest) <-> well_terminated rest).
Proof.
  intros Hg1 Hc1 Hg2 Hc2.
  assert (Hcount : filter ends_value (g1 ++ c1 :: g2 ++ c2 :: rest)
                   = c1 :: c2 :: filter ends_value rest).
  { rewrite filter_app, Hg1. cbn [app filter]. rewrite Hc1.
    rewrite filter_app, Hg2. cbn [app filter]. now rewrite Hc2. }
  split; [now rewrite Hcount|].
  unfold well_terminated. rewrite Hcount. cbn [List.length Nat.even].
  split; intros [Heven Hlast]; (split; [exact Heven|]).
  - destruct Hlast as [Hnil | (pre & c & Hpre & Hc)].
    { now destruct g1. }
    destruct (list_eq_dec Z.eq_dec rest []) as [Hr | Hr]; [now left|].
    right. destruct (exists_last Hr) as (pre' & c' & ->).
    exists pre', c'. split; [reflexivity|].
    replace (g1 ++ c1 :: g2 ++ c2 :: pre' ++ [c'])
      with ((g1 ++ c1 :: g2 ++ c2 :: pre') ++ [c']) in Hpre
      by (repeat (rewrite <- app_assoc; cbn [app]); reflexivity).
    apply app_inj_tail in Hpre. destruct Hpre as [_ ->]. exact Hc.
  - right. destruct Hlast as [-> | (pre & c & -> & Hc)].
    + exists (g1 ++ c1 :: g2), c2. split; [|exact Hc2].
      repeat (rewrite <- app_assoc; cbn [app]). reflexivity.
    + exists (g1 ++ c1 :: g2 ++ c2 :: pre), c. split; [|exact Hc].
      repeat (rewrite <- app_assoc; cbn [app]). reflexivity.
Qed.

Lemma not_well_terminated_open (codes : list Z) :
  codes <> [] -> filter ends_value codes = [] -> ~ well_terminated codes.
Proof.
  intros Hne Hnone [_ [Hnil | (pre & c & -> & Hc)]]; [contradiction|].
  rewrite filter_app in Hnone. cbn [filter] in Hnone. rewrite Hc in Hnone.
  now destruct (filter ends_value pre).
Qed.

Lemma not_well_terminated_odd (g1 rest : list Z) (c1 : Z) :
  filter ends_value g1 = [] -> ends_value c1 = true ->
  filter ends_value rest = [] -> ~ well_terminated (g1 ++ c1 :: rest).
Proof.
  intros Hg1 Hc1 Hrest [Heven _].
  rewrite filter_app, Hg1 in Heven. cbn [app filter] in Heven.
  rewrite Hc1, Hrest in Heven. discriminate.
Qed.

(** With at least as much fuel as characters, the loop fails only on a
    string that is not well terminated, and it yields one coordinate for
    every two values. *)
Lemma decode_loop_spec (fuel : nat) :
  forall (codes : list Z) (lat lng : Z),
    (List.length codes <= fuel)%nat ->
    (decode_loop fuel codes lat lng <> None <-> well_terminated codes) /\
    (forall coords,
        decode_loop fuel codes lat lng = Some coords ->
        (2 * List.length coords)%nat
        = List.length (filter ends_value codes)).
Proof.
  induction fuel as [|fuel IH]; intros codes lat lng Hfuel.
  - destruct codes; [|simpl in Hfuel; lia]. cbn [decode_loop filter].
    split.
    + split; [intros _ | discriminate]. split; [reflexivity | now left].
    + intros coords H. apply Some_inj in H. now subst.
  - destruct codes as [|c0 codes0] eqn:Ecodes.
    { cbn [decode_loop filter]. split.
      + split; [intros _ | discriminate]. split; [reflexivity | now left].
      + intros coords H. apply Some_inj in H. now subst. }
    rewrite <- Ecodes in *. assert (Hne : codes <> []) by congruence.
    assert (Hunfold : decode_loop (S fuel) codes lat lng =
              (r1 <- read_value codes 1 0 ;;
               r2 <- read_value (snd r1) 1 0 ;;
               coords <- decode_loop fuel (snd r2)
                           (lat + signed_delta (fst r1))
                           (lng + signed_delta (fst r2)) ;;
               Some ((inject_Z (lat + signed_delta (fst r1)) * (1 # 100000),
                      inject_Z (lng + signed_delta (fst r2)) * (1 # 100000))
                       :: coords))).
    { rewrite Ecodes. reflexivity. }
    rewrite Hunfold. clear Hunfold.
    destruct (read_value codes 1 0) as [[r1 rest1]|] eqn:E1; cbn [bind].
    2:{ apply read_value_None in E1. split; [|discriminate].
        split; [intro Hn; exfalso; now apply Hn|]. intro Hwt. exfalso.
        now apply (not_well_terminated_open codes Hne E1). }
    apply read_value_Some in E1.
    destruct E1 as (g1 & c1 & Hcodes & Hg1 & Hc1). cbn [fst snd].
    destruct (read_value rest1 1 0) as [[r2 rest2]|] eqn:E2; cbn [bind].
    2:{ apply read_value_None in E2. split; [|discriminate].
        split; [intro Hn; exfalso; now apply Hn|]. intro Hwt. rewrite Hcodes in Hwt. exfalso.
        now apply (not_well_terminated_odd g1 rest1 c1 Hg1 Hc1 E2). }
    apply read_value_Some in E2.
    destruct E2 as (g2 & c2 & Hrest1 & Hg2 & Hc2). cbn [fst snd].
    subst rest1.
    destruct (well_terminated_step g1 g2 rest2 c1 c2 Hg1 Hc1 Hg2 Hc2)
      as [Hcount Hwt].
    rewrite <- Hcodes in Hcount, Hwt.
    assert (Hlen : (List.length rest2 <= fuel)%nat).
    { rewrite Hcodes in Hfuel. rewrite !length_app in Hfuel.
      cbn [List.length] in Hfuel. rewrite length_app in Hfuel.
      cbn [List.length] in Hfuel. lia. }
    destruct (IH rest2 (lat + signed_delta r1)%Z (lng + signed_delta r2)%Z
                 Hlen) as [Hiff Hcoords].
    destruct (decode_loop fuel rest2 _ _) as [tail|]; cbn [bind].
    + split.
      * split; [intros _ | discriminate]. apply Hwt, Hiff. discriminate.
      * intros coords H. apply Some_inj in H. subst coords.
        cbn [List.length]. rewrite Hcount.
        specialize (Hcoords tail eq_refl). lia.
    + split; [|discriminate].
      split; [intro Hn; exfalso; now apply Hn|]. intro H. apply Hwt, Hiff in H. congruence.
Qed.

(** X15.  [decode_polyline] raises (the [IndexError] of reading past the
    end) exactly when the string is not made of an even number of complete
    values with nothing after the last one; otherwise it returns one
    coordinate for every two values.  The empty string gives the empty
    list. *)
Theorem decode_polyline_fails_iff_cut_short (encoded : string) :
  (decode_polyline encoded <> None <->
   well_terminated (code_points encoded)) /\
  (forall coords,
      decode_polyline encoded = Some coords ->
      (2 * List.length coords)%nat
      = List.length (filter ends_value (code_points encoded))).
Proof.
  unfold decode_polyline. apply decode_loop_spec. lia.
Qed.

Lemma read_value_shorter (codes : list Z) (result shift r : Z)
  (rest : list Z) :
  read_value codes result shift = Some (r, rest) ->
  (List.length rest < List.length codes)%nat.
Proof.
  intro H. apply read_value_Some in H.
  destruct H as (grp & c & -> & _). rewrite length_app. cbn [List.length]. lia.
Qed.

(** Any fuel that covers the length of the string gives the same result:
    the bound is never what stops the loop. *)
Lemma decode_loop_fuel (fuel1 : nat) :
  forall (fuel2 : nat) (codes : list Z) (lat lng : Z),
    (List.length codes <= fuel1)%nat -> (List.length codes <= fuel2)%nat ->
    decode_loop fuel1 codes lat lng = decode_loop fuel2 codes lat lng.
Proof.
  induction fuel1 as [|fuel1 IH]; intros fuel2 codes lat lng H1 H2.
  - destruct codes; [|simpl in H1; lia]. now destruct fuel2.
  - destruct codes as [|c codes]; [now destruct fuel2|].
    destruct fuel2 as [|fuel2]; [simpl in H2; lia|].
    cbn [decode_loop].
    destruct (read_value (c :: codes) 1 0) as [[r1 rest1]|] eqn:E1;
      cbn [bind fst snd]; [|reflexivity].
    destruct (read_value rest1 1 0) as [[r2 rest2]|] eqn:E2;
      cbn [bind fst snd]; [|reflexivity].
    apply read_value_shorter in E1, E2.
    rewrite (IH fuel2) by lia. reflexivity.
Qed.

(** ** What the decoder reads *)

Lemma read_value_group (grp : list Z) :
  forall (c : Z) (rest : list Z) (result shift : Z),
    Forall (fun x => 95 <= x <= 126)%Z grp ->
    (63 <= c <= 94)%Z -> (0 <= shift)%Z ->
    read_value (grp ++ c :: rest) result shift
    = Some ((result - 2 ^ shift + 2 ^ shift * base32 (grp ++ [c]))%Z, rest).
Proof.
  induction grp as [|x grp IH]; intros c rest result shift Hgrp Hc Hshift;
    cbn [app read_value base32].
  - destruct (Z.ltb_spec (c - 63 - 1) 31) as [_|Hge]; [|lia].
    rewrite Z.shiftl_mul_pow2 by lia.
    rewrite (Z.mod_small (c - 63) 32) by lia.
    f_equal. f_equal. lia.
  - inversion Hgrp as [|? ? Hx Hgrp']; subst.
    destruct (Z.ltb_spec (x - 63 - 1) 31) as [Hlt|_]; [lia|].
    rewrite IH by (try assumption; lia).
    rewrite Z.shiftl_mul_pow2 by lia.
    replace ((x - 63) mod 32)%Z with (x - 95)%Z.
    2:{ replace (x - 63)%Z with ((x - 95) + 1 * 32)%Z by lia.
        rewrite Z.mod_add by lia. rewrite Z.mod_small; lia. }
    rewrite Z.pow_add_r by lia. change (2 ^ 5)%Z with 32%Z.
    f_equal. f_equal. lia.
Qed.

(** X16.  A group of characters from the polyline alphabet, continuation
    characters (codes 95 to 126) closed by a final character (codes 63 to
    94), is read as the number whose base-32 digits, least significant
    first, are the low five bits of [ord(c) - 63]; the characters after the
    group are left unread. *)
Theorem read_value_is_base32 (grp : list Z) (c : Z) (rest : list Z) :
  Forall (fun x => 95 <= x <= 126)%Z grp ->
  (63 <= c <= 94)%Z ->
  read_value (grp ++ c :: rest) 1 0 = Some (base32 (grp ++ [c]), rest).
Proof.
  intros Hgrp Hc. rewrite read_value_group by (try assumption; lia).
  f_equal. f_equal. change (2 ^ 0)%Z with 1%Z. lia.
Qed.

(** ** What the decoder can produce *)

Lemma signed_delta_spec (r : Z) :
  signed_delta r = if Z.even r then (r / 2)%Z else (- (r / 2) - 1)%Z.
Proof.
  unfold signed_delta.
  change 1%Z with (Z.ones 1) at 1. rewrite Z.land_ones by lia.
  rewrite Z.shiftr_div_pow2 by lia. change (2 ^ 1)%Z with 2%Z.
  rewrite Z.lnot_eq_pred_opp.
  rewrite Zmod_even. destruct (Z.even r); cbn [Z.eqb negb]; lia.
Qed.

Lemma signed_delta_onto (n : Z) :
  exists r, (0 <= r)%Z /\ signed_delta r = n.
Proof.
  destruct (Z_lt_le_dec n 0) as [Hneg | Hpos].
  - exists (2 * (- n - 1) + 1)%Z. split; [lia|].
    rewrite signed_delta_spec.
    rewrite Z.even_add, Z.even_mul. cbn [Z.even orb Bool.eqb].
    replace (2 * (- n - 1) + 1)%Z with (1 + (- n - 1) * 2)%Z by lia.
    rewrite Z.div_add by lia. change (1 / 2)%Z with 0%Z. lia.
  - exists (2 * n)%Z. split; [lia|].
    rewrite signed_delta_spec.
    rewrite Z.even_mul. cbn [Z.even orb].
    rewrite Z.mul_comm, Z.div_mul by lia. reflexivity.
Qed.

Lemma base32_onto (bound : nat) :
  forall u : Z,
    (0 <= u <= Z.of_nat bound)%Z ->
    exists grp c,
      Forall (fun x => 95 <= x <= 126)%Z grp /\ (63 <= c <= 94)%Z /\
      base32 (grp ++ [c]) = u.
Proof.
  induction bound as [|bound IH]; intros u Hu.
  - exists [], 63%Z. repeat split; [constructor | lia | lia |].
    cbn. lia.
  - destruct (Z_lt_le_dec u 32) as [Hsmall | Hbig].
    + exists [], (u + 63)%Z. repeat split; [constructor | lia | lia |].
      cbn [app base32]. replace (u + 63 - 63)%Z with u by lia.
      rewrite Z.mod_small by lia. lia.
    + destruct (IH (u / 32)%Z) as (grp & c & Hgrp & Hc & Hval).
      { split; [apply Z.div_pos; lia|].
        assert (u / 32 < u)%Z by (apply Z.div_lt; lia). lia. }
      exists ((u mod 32 + 95) :: grp)%Z, c.
      pose proof (Z.mod_pos_bound u 32 ltac:(lia)) as Hmod.
      split; [constructor; [lia | exact Hgrp]|]. split; [exact Hc|].
      cbn [app base32]. rewrite Hval.
      replace (u mod 32 + 95 - 63)%Z with (u mod 32 + 1 * 32)%Z by lia.
      rewrite Z.mod_add by lia. rewrite Z.mod_mod by lia.
      rewrite (Z.div_mod u 32) at 3 by lia. lia.
Qed.

(** Every integer is the delta of some group of alphabet characters. *)
Lemma delta_onto (n : Z) (rest : list Z) :
  exists grp r,
    Forall (fun x => 63 <= x <= 126)%Z grp /\
    read_value (grp ++ rest) 1 0 = Some (r, rest) /\
    signed_delta r = n.
Proof.
  destruct (signed_delta_onto n) as (r & Hr & Hdelta).
  destruct (base32_onto (Z.to_nat r) r) as (grp & c & Hgrp & Hc & Hval);
    [lia|].
  exists (grp ++ [c]), r. split; [|split; [|exact Hdelta]].
  - apply Forall_app. split.
    + eapply Forall_impl; [|exact Hgrp]. cbv beta. intros; lia.
    + constructor; [lia | constructor].
  - rewrite <- app_assoc. cbn [app].
    rewrite read_value_group by (try assumption; lia).
    rewrite Hval. f_equal. f_equal. change (2 ^ 0)%Z with 1%Z. lia.
Qed.

Lemma decode_loop_onto (pts : list (Z * Z)) :
  forall lat lng : Z,
  exists codes,
    Forall (fun x => 63 <= x <= 126)%Z codes /\
    decode_loop (List.length codes) codes lat lng
    = Some (map (fun p => (inject_Z (fst p) * (1 # 100000),
                           inject_Z (snd p) * (1 # 100000))) pts).
Proof.
  induction pts as [|[plat plng] pts IH]; intros lat lng.
  - exists []. split; [constructor | reflexivity].
  - destruct (IH plat plng) as (tail & Htail & Hdecode).
    destruct (delta_onto (plng - lng) tail) as (g2 & r2 & Hg2 & Hread2 & Hd2).
    destruct (delta_onto (plat - lat) (g2 ++ tail))
      as (g1 & r1 & Hg1 & Hread1 & Hd1).
    exists (g1 ++ g2 ++ tail). split.
    { repeat (apply Forall_app; split); assumption. }
    pose proof (read_value_shorter _ _ _ _ _ Hread1) as Hlen1.
    pose proof (read_value_shorter _ _ _ _ _ Hread2) as Hlen2.
    destruct (g1 ++ g2 ++ tail) as [|c0 codes0] eqn:Ecodes.
    { simpl in Hlen1. lia. }
    cbn [List.length decode_loop].
    rewrite Hread1. cbn [bind fst snd]. rewrite Hread2. cbn [bind fst snd].
    rewrite Hd1, Hd2.
    replace (lat + (plat - lat))%Z with plat by lia.
    replace (lng + (plng - lng))%Z with plng by lia.
    rewrite (decode_loop_fuel _ (List.length tail)).
    + rewrite Hdecode. reflexivity.
    + cbn [List.length] in Hlen1. lia.
    + lia.
Qed.

Lemma code_points_onto (codes : list Z) :
  Forall (fun x => 63 <= x <= 126)%Z codes ->
  exists s : string, code_points s = codes.
Proof.
  intro H.
  exists (string_of_list_ascii
            (map (fun x => ascii_of_nat (Z.to_nat x)) codes)).
  unfold code_points. rewrite list_ascii_of_string_of_list_ascii, map_map.
  induction H as [|x codes Hx _ IH]; [reflexivity|].
  cbn [map]. rewrite IH. f_equal.
  rewrite nat_ascii_embedding by lia. lia.
Qed.

(** X17.  Every path on the grid of 1e-5 degrees is the decoding of some
    string: for any list of integer pairs there is a string, made of the
    characters with codes 63 to 126, that [decode_polyline] turns into
    those pairs scaled by 1e-5, in order. *)
Theorem decode_polyline_is_onto (pts : list (Z * Z)) :
  exists encoded : string,
    Forall (fun x => 63 <= x <= 126)%Z (code_points encoded) /\
    decode_polyline encoded
    = Some (map (fun p => (inject_Z (fst p) * (1 # 100000),
                           inject_Z (snd p) * (1 # 100000))) pts).
Proof.
  destruct (decode_loop_onto pts 0 0) as (codes & Hcodes & Hdecode).
  destruct (code_points_onto codes Hcodes) as [encoded Hencoded].
  exists encoded. unfold decode_polyline. rewrite Hencoded.
  split; assumption.
Qed.

(** * The engine under every input *)

Section Robustness.

Variable dist : Q -> Q -> Q -> Q -> Q.


Lemma update_vehicle_index_step (coords : list Coordinate) (sts : list Stop)
  (e : Q) (v v' : Vehicle) :
  index_in_range (route_len_of coords) v ->
  update_vehicle dist coords sts e v = Some v' ->
  (current_index v <= current_index v' <= current_index v + 1)%Z.
Proof.
  unfold index_in_range. intros Hv H. unfold update_vehicle in H.
  destruct (is_at_stop v).
  - destruct (Qle_bool _ _); apply Some_inj in H; subst v';
      cbn [current_index set_index set_at_stop set_wait];
      unfold next_index; lia.
  - destruct (Z.leb_spec (route_len_of coords) (current_index v)); [lia|].
    destruct (py_index coords (current_index v)) as [[tlat tlon]|];
      cbn [bind] in H; [|discriminate].
    destruct (current_position v) as [clat clon].
    destruct (Qeq_bool _ _).
    { apply Some_inj in H. subst v'. cbn [current_index set_index].
      unfold next_index. lia. }
    destruct (Qle_bool _ _).
    + destruct (stop_at dist sts (tlat, tlon));
        cbn [is_at_stop set_wait set_at_stop set_position negb] in H.
      * apply Some_inj in H. subst v'.
        cbn [current_index set_wait set_at_stop set_position]. lia.
      * destruct (is_at_stop v); cbn [negb] in H; apply Some_inj in H;
          subst v'; cbn [current_index set_index set_position];
          unfold next_index; lia.
    + apply Some_inj in H. subst v'. cbn [current_index set_position]. lia.
Qed.

(** X19.  On a reachable engine a tick never moves a route index backwards
    and never skips a coordinate: every vehicle's index stays where it is
    or grows by exactly one.  Only a route replacement can lower it. *)
Theorem tick_moves_index_forward_by_at_most_one (e : Q)
  (sim sim' : BusSimulator) :
  reachable dist sim ->
  update_positions dist e sim = Some sim' ->
  Forall2 (fun v v' =>
             (current_index v <= current_index v' <= current_index v + 1)%Z)
          (vehicles sim) (vehicles sim').
Proof.
  intros Hreach H. apply reachable_well_formed in Hreach.
  destruct Hreach as [_ _ _ Hidx _]. unfold update_positions in H.
  destruct (mapM _ (vehicles sim)) as [vs|] eqn:Em; cbn [bind] in H;
    [|discriminate].
  apply Some_inj in H. subst sim'. cbn [vehicles].
  apply mapM_Forall2 in Em. apply Forall2_In_l in Em.
  eapply Forall2_impl; [|exact Em]. cbv beta. intros v v' [Hin Hstep].
  rewrite Forall_forall in Hidx.
  eapply update_vehicle_index_step; eauto.
Qed.

End Robustness.

(** * The further properties at concrete inputs *)

Lemma flat_distance_refl (lat lon : Q) : flat_distance lat lon lat lon == 0.
Proof.
  unfold flat_distance.
  assert (Hlat : lat - lat == 0) by ring.
  assert (Hlon : lon - lon == 0) by ring.
  rewrite Hlat, Hlon. reflexivity.
Qed.

Lemma vehicle_ids_identify_witness :
  map id (vehicles sim2) = map bus_id (py_range 0 (num_vehicles sim2)).
Proof.
  apply (vehicle_ids_identify flat_distance sim2).
  exists route2, stops2, 1%Z, sim2. split; [reflexivity | constructor].
Defined.

Lemma tick_keeps_route_and_fleet_witness :
  coordinates sim2_at_terminus = coordinates sim2 /\
  stops sim2_at_terminus = stops sim2.
Proof.
  destruct (tick_keeps_route_and_fleet flat_distance 20000
              {| coordinates := route2; stops := stops2;
                 vehicles := [mkVehicle "bus-1" 1 (0, 0) false 0 25];
                 num_vehicles := 1 |} sim2_at_terminus)
    as (Hc & Hs & _).
  - vm_compute. reflexivity.
  - split; assumption.
Defined.

Lemma first_tick_only_advances_indices_witness :
  exists sim',
    update_positions flat_distance 5 sim3 = Some sim' /\
    Forall2 (fun v v' => current_position v' = current_position v)
            (vehicles sim3) (vehicles sim').
Proof.
  destruct (first_tick_only_advances_indices flat_distance 5 sim3)
    as (sim' & Hrun & Hall).
  - exact flat_distance_refl.
  - left. exists route3, stops3, 1%Z. reflexivity.
  - exists sim'. split; [exact Hrun|].
    eapply Forall2_impl; [|exact Hall]. cbv beta. intros; tauto.
Defined.

Lemma partial_move_stays_on_leg_witness :
  exists v',
    update_vehicle flat_distance route3 stops3 3600 bus_on_leg = Some v' /\
    current_index v' = current_index bus_on_leg.
Proof.
  destruct (partial_move_stays_on_leg flat_distance route3 stops3 3600
              bus_on_leg (0, 1))
    as (v' & Hstep & _ & Hidx & _).
  - reflexivity.
  - reflexivity.
  - reflexivity.
  - vm_compute. discriminate.
  - vm_compute. reflexivity.
  - exists v'. split; assumption.
Defined.

Lemma set_route_coordinates_absorbs_witness :
  set_route_coordinates route2
    {| coordinates := route3; stops := stops2;
       vehicles := [mkVehicle "bus-1" 0 (0, 0) false 0 25];
       num_vehicles := 1 |}
  = set_route_coordinates route2 sim2_at_terminus.
Proof.
  apply (set_route_coordinates_absorbs route3 route2 sim2_at_terminus).
  - discriminate.
  - vm_compute. reflexivity.
Defined.

Lemma init_spreads_fleet_witness :
  exists sim, init route3 stops3 3 = Some sim /\ coordinates sim = route3.
Proof.
  destruct (init_spreads_fleet route3 stops3 3) as (sim & Hinit & Hc & _).
  - discriminate.
  - exists sim. split; assumption.
Defined.


Lemma status_reports_first_vehicle_witness :
  exists v rest, vehicles sim2 = v :: rest.
Proof.
  destruct (status_reports_first_vehicle flat_distance sim2)
    as (v & rest & _ & _ & _ & Hv & _).
  - exists route2, stops2, 1%Z, sim2. split; [reflexivity | constructor].
  - exists v, rest. exact Hv.
Defined.

Lemma get_all_eta_covers_every_stop_witness :
  exists etas,
    get_all_eta flat_distance sim2 = Some etas /\
    map fst etas = map name (stops sim2).
Proof.
  destruct (get_all_eta_covers_every_stop flat_distance sim2)
    as (v & rest & etas & _ & Hetas & Hnames & _).
  - exists route2, stops2, 1%Z, sim2. split; [reflexivity | constructor].
  - exists etas. split; assumption.
Defined.



Lemma read_value_is_base32_witness :
  read_value ([95; 112; 126; 105] ++ 70 :: [])%Z 1 0
  = Some (base32 ([95; 112; 126; 105] ++ [70])%Z, []).
Proof.
  apply (read_value_is_base32 [95; 112; 126; 105]%Z 70 []).
  - repeat constructor; discriminate.
  - split; discriminate.
Defined.


Lemma tick_moves_index_forward_by_at_most_one_witness :
  Forall2 (fun v v' =>
             (current_index v <= current_index v' <= current_index v + 1)%Z)
          (vehicles sim2)
          [mkVehicle "bus-1" 1 (0, 0) false 0 25].
Proof.
  apply (tick_moves_index_forward_by_at_most_one flat_distance 0 sim2
           {| coordinates := route2; stops := stops2;
              vehicles := [mkVehicle "bus-1" 1 (0, 0) false 0 25];
              num_vehicles := 1 |}).
  - exists route2, stops2, 1%Z, sim2. split; [reflexivity | constructor].
  - vm_compute. reflexivity.
Defined.
